(** * A shallow embedding of fastuidraw's adaptive path tessellation
    (src/fastuidraw/tessellated_path.cpp) and of the event loop and
    intersection synthesis of the GLU sweep tessellator
    (src/3rd_party/glu-tess/sweep.cpp).

    Scalars ([float] and [double] in the source) are modelled by exact
    rationals [Q]; the transcendental primitives [t_cos], [t_sin] and the
    square root behind [vec2::magnitude] are left abstract (Section
    variables), and so is the constant [M_PI]. *)

From Stdlib Require Import QArith Qabs Qround ZArith Lia Lqa.
From stdpp Require Import base list.

Local Open Scope Q_scope.

(** ** Geometry primitives *)

Definition vec2 : Type := (Q * Q)%type.

Definition vec2_add (a b : vec2) : vec2 := (a.1 + b.1, a.2 + b.2).
Definition vec2_sub (a b : vec2) : vec2 := (a.1 - b.1, a.2 - b.2).
Definition vec2_scale (k : Q) (a : vec2) : vec2 := (k * a.1, k * a.2).

Record range_type (T : Type) := mk_range { m_begin : T; m_end : T }.
Arguments mk_range {T} _ _.
Arguments m_begin {T} _.
Arguments m_end {T} _.

(** [a < b] on floats, as a boolean. *)
Definition Qltb (a b : Q) : bool := negb (Qle_bool b a).

(** ** TessellatedPath::segment *)

Inductive segment_type := line_segment | arc_segment.

Record segment := mk_segment {
  m_type : segment_type;
  m_start_pt : vec2;
  m_end_pt : vec2;
  m_center : vec2;
  m_radius : Q;
  m_arc_angle : range_type Q;
  m_length : Q;
  m_distance_from_edge_start : Q;
  m_distance_from_contour_start : Q;
  m_edge_length : Q;
  m_open_contour_length : Q;
  m_closed_contour_length : Q;
  m_enter_segment_unit_vector : vec2;
  m_leaving_segment_unit_vector : vec2;
  m_tangent_with_predecessor : bool
}.

(** A default-constructed segment: the fields the producers leave unset
    are read as 0. *)
Definition default_segment : segment :=
  {| m_type := line_segment; m_start_pt := (0, 0); m_end_pt := (0, 0);
     m_center := (0, 0); m_radius := 0; m_arc_angle := mk_range 0 0;
     m_length := 0; m_distance_from_edge_start := 0;
     m_distance_from_contour_start := 0; m_edge_length := 0;
     m_open_contour_length := 0; m_closed_contour_length := 0;
     m_enter_segment_unit_vector := (0, 0);
     m_leaving_segment_unit_vector := (0, 0);
     m_tangent_with_predecessor := false |}.

(** [S.m_x = v] for the fields written after a segment is produced. *)
Definition set_local_values (S : segment) (len : Q) (enter leave : vec2) : segment :=
  {| m_type := m_type S; m_start_pt := m_start_pt S; m_end_pt := m_end_pt S;
     m_center := m_center S; m_radius := m_radius S; m_arc_angle := m_arc_angle S;
     m_length := len; m_distance_from_edge_start := m_distance_from_edge_start S;
     m_distance_from_contour_start := m_distance_from_contour_start S;
     m_edge_length := m_edge_length S;
     m_open_contour_length := m_open_contour_length S;
     m_closed_contour_length := m_closed_contour_length S;
     m_enter_segment_unit_vector := enter;
     m_leaving_segment_unit_vector := leave;
     m_tangent_with_predecessor := m_tangent_with_predecessor S |}.

Definition set_distances (S : segment) (from_edge from_contour : Q) : segment :=
  {| m_type := m_type S; m_start_pt := m_start_pt S; m_end_pt := m_end_pt S;
     m_center := m_center S; m_radius := m_radius S; m_arc_angle := m_arc_angle S;
     m_length := m_length S; m_distance_from_edge_start := from_edge;
     m_distance_from_contour_start := from_contour;
     m_edge_length := m_edge_length S;
     m_open_contour_length := m_open_contour_length S;
     m_closed_contour_length := m_closed_contour_length S;
     m_enter_segment_unit_vector := m_enter_segment_unit_vector S;
     m_leaving_segment_unit_vector := m_leaving_segment_unit_vector S;
     m_tangent_with_predecessor := m_tangent_with_predecessor S |}.

Definition set_edge_length (S : segment) (l : Q) : segment :=
  {| m_type := m_type S; m_start_pt := m_start_pt S; m_end_pt := m_end_pt S;
     m_center := m_center S; m_radius := m_radius S; m_arc_angle := m_arc_angle S;
     m_length := m_length S; m_distance_from_edge_start := m_distance_from_edge_start S;
     m_distance_from_contour_start := m_distance_from_contour_start S;
     m_edge_length := l;
     m_open_contour_length := m_open_contour_length S;
     m_closed_contour_length := m_closed_contour_length S;
     m_enter_segment_unit_vector := m_enter_segment_unit_vector S;
     m_leaving_segment_unit_vector := m_leaving_segment_unit_vector S;
     m_tangent_with_predecessor := m_tangent_with_predecessor S |}.

Definition set_contour_lengths (S : segment) (open closed : Q) : segment :=
  {| m_type := m_type S; m_start_pt := m_start_pt S; m_end_pt := m_end_pt S;
     m_center := m_center S; m_radius := m_radius S; m_arc_angle := m_arc_angle S;
     m_length := m_length S; m_distance_from_edge_start := m_distance_from_edge_start S;
     m_distance_from_contour_start := m_distance_from_contour_start S;
     m_edge_length := m_edge_length S;
     m_open_contour_length := open;
     m_closed_contour_length := closed;
     m_enter_segment_unit_vector := m_enter_segment_unit_vector S;
     m_leaving_segment_unit_vector := m_leaving_segment_unit_vector S;
     m_tangent_with_predecessor := m_tangent_with_predecessor S |}.

(** Consecutive segments of a list meet: [end of S[i] == start of S[i+1]]. *)
Definition contiguous (l : list segment) : Prop :=
  forall (i : nat) (s1 s2 : segment),
    l !! i = Some s1 -> l !! S i = Some s2 -> m_end_pt s1 = m_start_pt s2.

Section Tessellation.

(** The floating point primitives the tessellation code calls. *)
Variable M_PI : Q.
Variables t_cos t_sin : Q -> Q.
Variable magnitude : vec2 -> Q.

(** ** SegmentStorage::add_arc_segment and add_tessellated_arc_segment *)

Definition max_arc : Q := M_PI / 4.

(** The body of [for (i = 0, theta = arc_angle.m_begin; i < cnt; ++i, theta += da)];
    [k] counts the iterations left. *)
Fixpoint arc_segment_loop (k i cnt : nat) (theta da : Q)
    (start end_ center : vec2) (radius : Q) (tangent_with_predecessor : bool)
    (d : list segment) : list segment :=
  match k with
  | O => d
  | Datatypes.S k' =>
      let start_pt := if Nat.eqb i 0 then start else m_end_pt (List.last d default_segment) in
      let twp := if Nat.eqb i 0 then tangent_with_predecessor else true in
      let end_pt := if Nat.eqb (i + 1) cnt then end_
                    else vec2_add center (vec2_scale radius (t_cos (theta + da), t_sin (theta + da))) in
      let Sg := {| m_type := arc_segment; m_start_pt := start_pt; m_end_pt := end_pt;
                   m_center := center; m_radius := radius;
                   m_arc_angle := mk_range theta (theta + da);
                   m_length := 0; m_distance_from_edge_start := 0;
                   m_distance_from_contour_start := 0; m_edge_length := 0;
                   m_open_contour_length := 0; m_closed_contour_length := 0;
                   m_enter_segment_unit_vector := (0, 0);
                   m_leaving_segment_unit_vector := (0, 0);
                   m_tangent_with_predecessor := twp |} in
      arc_segment_loop k' (Datatypes.S i) cnt (theta + da) da start end_ center radius
                       tangent_with_predecessor (d ++ [Sg])
  end.

(** [cnt = 1u + static_cast<unsigned int>(a / max_arc)]; the cast truncates,
    which is the floor as [a >= 0]. *)
Definition arc_count (arc_angle : range_type Q) : nat :=
  let a := Qabs (m_end arc_angle - m_begin arc_angle) in
  1 + Z.to_nat (Qfloor (a / max_arc)).

Definition add_tessellated_arc_segment (start end_ center : vec2) (radius : Q)
    (arc_angle : range_type Q) (tangent_with_predecessor : bool)
    (d : list segment) : list segment :=
  let cnt := arc_count arc_angle in
  let da := (m_end arc_angle - m_begin arc_angle) / inject_Z (Z.of_nat cnt) in
  arc_segment_loop cnt 0 cnt (m_begin arc_angle) da start end_ center radius
                   tangent_with_predecessor d.

Definition crit_angles : list Q :=
  [-(1#2) * M_PI; 0; (1#2) * M_PI; M_PI; (3#2) * M_PI; 2 * M_PI; (5#2) * M_PI].

Definition crit_pts : list vec2 :=
  [(0, -1); (1, 0); (0, 1); (-1, 0); (0, -1); (1, 0); (0, 1)].

(** The choice of [K] and [should_split] in the body of the loop below. *)
Definition crit_choice (arc_angle : range_type Q) (i reverse_i : nat) : nat * bool :=
  if Qltb (m_begin arc_angle) (m_end arc_angle)
  then (i, Qltb (m_begin arc_angle) (nth i crit_angles 0)
           && Qltb (nth i crit_angles 0) (m_end arc_angle))
  else (reverse_i, Qltb (m_end arc_angle) (nth reverse_i crit_angles 0)
                   && Qltb (nth reverse_i crit_angles 0) (m_begin arc_angle)).

(** The loop [for (i = 0, reverse_i = 6; i < 7; ++i, --reverse_i)] over the
    critical angles, threading [prev_angle], [prev_pt],
    [tangent_with_predessor] and the storage [d]. *)
Fixpoint crit_loop (k i reverse_i : nat) (start end_ center : vec2) (radius : Q)
    (arc_angle : range_type Q) (prev_angle : Q) (prev_pt : vec2)
    (tangent_with_predessor : bool) (d : list segment)
    : Q * vec2 * bool * list segment :=
  match k with
  | O => (prev_angle, prev_pt, tangent_with_predessor, d)
  | Datatypes.S k' =>
      let '(K, should_split) := crit_choice arc_angle i reverse_i in
      if should_split then
        let end_pt := vec2_add center (vec2_scale radius (nth K crit_pts (0, 0))) in
        let d' := add_tessellated_arc_segment prev_pt end_pt center radius
                    (mk_range prev_angle (nth K crit_angles 0)) tangent_with_predessor d in
        crit_loop k' (Datatypes.S i) (Nat.pred reverse_i) start end_ center radius arc_angle
                  (nth K crit_angles 0) end_pt false d'
      else
        crit_loop k' (Datatypes.S i) (Nat.pred reverse_i) start end_ center radius arc_angle
                  prev_angle prev_pt tangent_with_predessor d
  end.

Definition add_arc_segment (start end_ center : vec2) (radius : Q)
    (arc_angle : range_type Q) (d : list segment) : list segment :=
  let '(prev_angle, prev_pt, twp, d') :=
    crit_loop 7 0 6 start end_ center radius arc_angle (m_begin arc_angle) start false d in
  add_tessellated_arc_segment prev_pt end_ center radius
    (mk_range prev_angle (m_end arc_angle)) twp d'.

Definition add_line_segment (start end_ : vec2) (d : list segment) : list segment :=
  d ++ [{| m_type := line_segment; m_start_pt := start; m_end_pt := end_;
           m_center := (0, 0); m_radius := 0; m_arc_angle := mk_range 0 0;
           m_length := 0; m_distance_from_edge_start := 0;
           m_distance_from_contour_start := 0; m_edge_length := 0;
           m_open_contour_length := 0; m_closed_contour_length := 0;
           m_enter_segment_unit_vector := (0, 0);
           m_leaving_segment_unit_vector := (0, 0);
           m_tangent_with_predecessor := false |}].

(** The angle an arc segment spans (signed). *)
Definition arc_span (Sg : segment) : Q :=
  m_end (m_arc_angle Sg) - m_begin (m_arc_angle Sg).

(** What SegmentStorage::add_arc_segment promises of each piece. *)
Definition small_arc (Sg : segment) : Prop :=
  m_type Sg = arc_segment /\ Qabs (arc_span Sg) <= M_PI / 4.

End Tessellation.

(** ** TessellatedPath and its construction *)

Inductive edge_type_t := starts_new_edge | continues_edge.

(** class Edge of tessellated_path.cpp *)
Record Edge := mk_Edge {
  m_edge_range : range_type nat;
  m_edge_type : edge_type_t
}.

Definition default_edge : Edge := mk_Edge (mk_range 0%nat 0%nat) starts_new_edge.

Definition set_edge_range (r : range_type nat) (E : Edge) : Edge :=
  mk_Edge r (m_edge_type E).
Definition set_edge_type (t : edge_type_t) (E : Edge) : Edge :=
  mk_Edge (m_edge_range E) t.

Record TessellationParams := mk_params {
  m_max_distance : Q;
  m_max_recursion : nat;
  m_allow_arcs : bool
}.

(** TessellatedPathPrivate; the bounding box and the companion [Path] are
    not modelled.  [m_stroked] and [m_filled] hold the identity of the
    lazily created StrokedPath and FilledPath objects. *)
Record TessellatedPathPrivate := mk_tpp {
  m_edges : list (list Edge);
  m_segment_data : list segment;
  m_params : TessellationParams;
  tpp_max_distance : Q;
  m_has_arcs : bool;
  m_max_segments : nat;
  tpp_max_recursion : nat;
  m_stroked : option nat;
  m_filled : option nat
}.

(** TessellatedPathPrivate(number_contours, TP) *)
Definition TessellatedPathPrivate_init (num_contours : nat) (TP : TessellationParams)
    : TessellatedPathPrivate :=
  mk_tpp (replicate num_contours []) [] TP 0 false 0 0 None None.

(** TessellatedPathBuildingState; [m_start_contour] is an index into
    [m_temp] ([None] while it is still the uninitialised iterator); the
    fields [m_contour_length], [m_open_contour_length] and
    [m_closed_contour_length] are prefixed [bs_] to keep them apart from the
    segment fields of the same name. *)
Record BuildingState := mk_bs {
  m_loc : nat;
  m_ende : nat;
  m_temp : list (list segment);
  bs_contour_length : Q;
  bs_open_contour_length : Q;
  bs_closed_contour_length : Q;
  m_start_contour : option nat
}.

Definition BuildingState_init : BuildingState := mk_bs 0 0 [] 0 0 0 None.

(** [t_max]: [(a < b) ? b : a] *)
Definition t_max_Q (a b : Q) : Q := if Qltb a b then b else a.

Section Construction.

Variables t_cos t_sin : Q -> Q.
Variable magnitude : vec2 -> Q.

Definition compute_local_segment_values (Sg : segment) : segment :=
  match m_type Sg with
  | line_segment =>
      let delta := vec2_sub (m_end_pt Sg) (m_start_pt Sg) in
      let len := magnitude delta in
      let u := if Qltb 0 len then (delta.1 / len, delta.2 / len) else (1, 0) in
      set_local_values Sg len u u
  | arc_segment =>
      let b := m_begin (m_arc_angle Sg) in
      let e := m_end (m_arc_angle Sg) in
      let sgn := if Qltb b e then 1 else -1 in
      set_local_values Sg (Qabs (e - b) * m_radius Sg)
        (vec2_scale sgn (- t_sin b, t_cos b)) (vec2_scale sgn (- t_sin e, t_cos e))
  end.

Definition is_arc (Sg : segment) : bool :=
  match m_type Sg with arc_segment => true | line_segment => false end.

(** The first loop of add_edge over [work_room]; [prev] is [work_room[n - 1]]
    once updated, [clen] is [builder.m_contour_length]. *)
Fixpoint add_edge_loop (prev : option segment) (clen : Q) (has_arcs : bool)
    (work_room : list segment) : list segment * Q * bool :=
  match work_room with
  | [] => ([], clen, has_arcs)
  | Sg :: rest =>
      let has_arcs' := has_arcs || is_arc Sg in
      let S1 := compute_local_segment_values Sg in
      let dfe := match prev with
                 | None => 0
                 | Some p => m_distance_from_edge_start p + m_length p
                 end in
      let S2 := set_distances S1 dfe clen in
      let '(rest', clen', ha) := add_edge_loop (Some S2) (clen + m_length S2) has_arcs' rest in
      (S2 :: rest', clen', ha)
  end.

(** The second loop of add_edge: [m_edge_length] of every segment. *)
Definition set_edge_lengths (work_room : list segment) : list segment :=
  let L := List.last work_room default_segment in
  (fun Sg => set_edge_length Sg (m_distance_from_edge_start L + m_length L)) <$> work_room.

(** TessellatedPathPrivate::add_edge; [None] when [FASTUIDRAWassert(needed > 0u)]
    fails. *)
Definition add_edge (d : TessellatedPathPrivate) (b : BuildingState) (o e : nat)
    (work_room : list segment) (edge_max_distance : Q) (is_closing_edge : bool)
    : option (TessellatedPathPrivate * BuildingState) :=
  let needed := length work_room in
  let edges := alter (alter (set_edge_range (mk_range (m_loc b) (m_loc b + needed)%nat)) e) o
                     (m_edges d) in
  let loc := (m_loc b + needed)%nat in
  if Nat.eqb needed 0 then None else
  let '(segs, clen, has_arcs) := add_edge_loop None (bs_contour_length b) (m_has_arcs d) work_room in
  let segs' := set_edge_lengths segs in
  let '(open, closed) :=
    if Nat.eqb (e + 2) (m_ende b) then (clen, bs_closed_contour_length b)
    else if Nat.eqb (e + 1) (m_ende b) then (bs_open_contour_length b, clen)
    else (bs_open_contour_length b, bs_closed_contour_length b) in
  let start := if Nat.eqb e 0 then Some (length (m_temp b)) else m_start_contour b in
  Some (mk_tpp edges (m_segment_data d) (m_params d)
               (t_max_Q (tpp_max_distance d) edge_max_distance) has_arcs
               (Nat.max (m_max_segments d) needed) (tpp_max_recursion d)
               (m_stroked d) (m_filled d),
        mk_bs loc (m_ende b) (m_temp b ++ [segs']) clen open closed start).

(** TessellatedPathPrivate::start_contour *)
Definition start_contour (d : TessellatedPathPrivate) (b : BuildingState) (o num_edges : nat)
    : TessellatedPathPrivate * BuildingState :=
  (mk_tpp (alter (fun es => resize num_edges default_edge es) o (m_edges d))
          (m_segment_data d) (m_params d) (tpp_max_distance d) (m_has_arcs d)
          (m_max_segments d) (tpp_max_recursion d) (m_stroked d) (m_filled d),
   mk_bs (m_loc b) num_edges (m_temp b) 0 0 0 (m_start_contour b)).

(** TessellatedPathPrivate::end_contour: the segments of the [m_temp]
    entries from [m_start_contour] to the end get the contour lengths. *)
Definition end_contour (b : BuildingState) : BuildingState :=
  match m_start_contour b with
  | None => b
  | Some i =>
      if Nat.eqb i (length (m_temp b)) then b
      else mk_bs (m_loc b) (m_ende b)
             (take i (m_temp b)
              ++ (fmap (M := list) (fun Sg => set_contour_lengths Sg (bs_open_contour_length b)
                                                                      (bs_closed_contour_length b))
                   <$> drop i (m_temp b)))
             (bs_contour_length b) (bs_open_contour_length b) (bs_closed_contour_length b)
             (m_start_contour b)
  end.

(** TessellatedPathPrivate::finalize; [None] when [m_edges.back().back()] does
    not exist or [FASTUIDRAWassert(total_needed == m_segment_data.size())]
    fails. *)
Definition finalize (d : TessellatedPathPrivate) (b : BuildingState)
    : option TessellatedPathPrivate :=
  es ← last (m_edges d);
  ed ← last es;
  let data := m_segment_data d ++ concat (m_temp b) in
  if Nat.eqb (m_end (m_edge_range ed)) (length data)
  then Some (mk_tpp (m_edges d) data (m_params d) (tpp_max_distance d) (m_has_arcs d)
                    (m_max_segments d) (tpp_max_recursion d) (m_stroked d) (m_filled d))
  else None.

(** What the tessellation of one edge hands to [add_edge]: the segments
    written to the SegmentStorage, [out_max_distance], the recursion depth of
    the tessellation state when the code reads one, and the edge type of the
    interpolator. *)
Record edge_output := mk_edge_output {
  eo_segments : list segment;
  eo_max_distance : Q;
  eo_depth : option nat;
  eo_edge_type : edge_type_t
}.

(** The inner [for (e ...)] loop of both TessellatedPath constructors. *)
Fixpoint add_edges (d : TessellatedPathPrivate) (b : BuildingState) (o e ende : nat)
    (edges : list edge_output) : option (TessellatedPathPrivate * BuildingState) :=
  match edges with
  | [] => Some (d, b)
  | eo :: rest =>
      let d0 := match eo_depth eo with
                | None => d
                | Some k => mk_tpp (m_edges d) (m_segment_data d) (m_params d)
                              (tpp_max_distance d) (m_has_arcs d) (m_max_segments d)
                              (Nat.max (tpp_max_recursion d) k) (m_stroked d) (m_filled d)
                end in
      '(d1, b1) ← add_edge d0 b o e (eo_segments eo) (eo_max_distance eo) (Nat.eqb (e + 1) ende);
      let d2 := mk_tpp (alter (alter (set_edge_type (eo_edge_type eo)) e) o (m_edges d1))
                  (m_segment_data d1) (m_params d1) (tpp_max_distance d1) (m_has_arcs d1)
                  (m_max_segments d1) (tpp_max_recursion d1) (m_stroked d1) (m_filled d1) in
      add_edges d2 b1 o (Datatypes.S e) ende rest
  end.

(** The outer [for (o ...)] loop of both TessellatedPath constructors. *)
Fixpoint add_contours (d : TessellatedPathPrivate) (b : BuildingState) (o : nat)
    (contours : list (list edge_output)) : option (TessellatedPathPrivate * BuildingState) :=
  match contours with
  | [] => Some (d, b)
  | c :: rest =>
      let '(d1, b1) := start_contour d b o (length c) in
      '(d2, b2) ← add_edges d1 b1 o 0 (length c) c;
      add_contours d2 (end_contour b2) (Datatypes.S o) rest
  end.

(** The body shared by both TessellatedPath constructors, once each edge has
    been tessellated: [new TessellatedPathPrivate(n, params)], the early
    return on zero contours, the loops and [finalize]. *)
Definition build_tessellated_path (params : TessellationParams)
    (contours : list (list edge_output)) : option TessellatedPathPrivate :=
  let d := TessellatedPathPrivate_init (length contours) params in
  if Nat.eqb (length contours) 0 then Some d
  else '(d', b) ← add_contours d BuildingState_init 0 contours; finalize d' b.

End Construction.

(** ** Query surface of TessellatedPath *)

Definition number_contours (d : TessellatedPathPrivate) : nat := length (m_edges d).
Definition segment_data (d : TessellatedPathPrivate) : list segment := m_segment_data d.
Definition max_distance (d : TessellatedPathPrivate) : Q := tpp_max_distance d.
Definition max_recursion (d : TessellatedPathPrivate) : nat := tpp_max_recursion d.
Definition number_edges (d : TessellatedPathPrivate) (o : nat) : option nat :=
  length <$> m_edges d !! o.

Definition edge_range (d : TessellatedPathPrivate) (o e : nat) : option (range_type nat) :=
  es ← m_edges d !! o; ed ← es !! e; Some (m_edge_range ed).

(** [c_array::sub_array(range)] *)
Definition sub_array {A} (l : list A) (r : range_type nat) : list A :=
  take (m_end r - m_begin r) (drop (m_begin r) l).

Definition edge_segment_data (d : TessellatedPathPrivate) (o e : nat) : option (list segment) :=
  r ← edge_range d o e; Some (sub_array (m_segment_data d) r).

Definition contour_range (d : TessellatedPathPrivate) (o : nat) : option (range_type nat) :=
  es ← m_edges d !! o; f ← head es; l ← last es;
  Some (mk_range (m_begin (m_edge_range f)) (m_end (m_edge_range l))).

Definition contour_segment_data (d : TessellatedPathPrivate) (o : nat) : option (list segment) :=
  r ← contour_range d o; Some (sub_array (m_segment_data d) r).

Definition tessellation_parameters (d : TessellatedPathPrivate) : TessellationParams := m_params d.
Definition max_segments (d : TessellatedPathPrivate) : nat := m_max_segments d.
Definition has_arcs (d : TessellatedPathPrivate) : bool := m_has_arcs d.

(** [TessellatedPath::edge_type(contour, edge)]; [None] where the index
    checks of [m_edges[contour][edge]] fail. *)
Definition edge_type (d : TessellatedPathPrivate) (o e : nat) : option edge_type_t :=
  es ← m_edges d !! o; ed ← es !! e; Some (m_edge_type ed).

(** ** Vocabulary of the statements about TessellatedPath *)

Definition addlen (acc : Q) (Sg : segment) : Q := acc + m_length Sg.

(** The sum of the [m_length] of a list of segments, accumulated in order. *)
Definition sum_lengths (l : list segment) : Q := fold_left addlen l 0.

(** The distance fields of the segments of one edge. *)
Definition edge_fields_ok (l : list segment) : Prop :=
  (forall s, l !! 0%nat = Some s -> m_distance_from_edge_start s = 0)
  /\ (forall (i : nat) s1 s2, l !! i = Some s1 -> l !! Datatypes.S i = Some s2 ->
        m_distance_from_edge_start s2 = m_distance_from_edge_start s1 + m_length s1)
  /\ (forall L, last l = Some L -> forall s, s ∈ l ->
        m_edge_length s = m_distance_from_edge_start L + m_length L).

(** Consecutive ranges of [start + lengths]: the edge ranges of segment lists
    stored one after the other from index [start]. *)
Fixpoint chain_ranges (start : nat) (ls : list (list segment)) : list (range_type nat) :=
  match ls with
  | [] => []
  | l :: r => mk_range start (start + length l)%nat :: chain_ranges (start + length l) r
  end.

Fixpoint contour_ranges (start : nat) (G : list (list (list segment)))
    : list (list (range_type nat)) :=
  match G with
  | [] => []
  | g :: G' => chain_ranges start g :: contour_ranges (start + length (concat g)) G'
  end.

(** A chain of segments from [p] to [q]: each segment starts where the
    previous one ended. *)
Fixpoint joins (p : vec2) (l : list segment) (q : vec2) : Prop :=
  match l with
  | [] => p = q
  | Sg :: rest => m_start_pt Sg = p /\ joins (m_end_pt Sg) rest q
  end.

(** How the segments [p] that [add_edge] stores for an edge relate to the
    edge output [eo] of its interpolator. *)
Definition edge_rel (p : list segment) (eo : edge_output) : Prop :=
  p <> []
  /\ edge_fields_ok p
  /\ List.map m_start_pt p = List.map m_start_pt (eo_segments eo)
  /\ List.map m_end_pt p = List.map m_end_pt (eo_segments eo).

(** Every segment of the contour [g] (a list of edges) carries the sum of
    the lengths of the contour as [m_closed_contour_length]. *)
Definition closed_ok (g : list (list segment)) : Prop :=
  forall s, s ∈ concat g -> m_closed_contour_length s = sum_lengths (concat g).

(** The fields of a segment that [add_edge] keeps as the SegmentStorage
    received them. *)
Definition seg_geometry (Sg : segment)
    : segment_type * vec2 * vec2 * vec2 * Q * range_type Q * bool :=
  (m_type Sg, m_start_pt Sg, m_end_pt Sg, m_center Sg, m_radius Sg, m_arc_angle Sg,
   m_tangent_with_predecessor Sg).

(** What the [t_max] updates of [m_max_distance], [m_max_segments] and
    [m_max_recursion] accumulate over the edges handed to [add_edge], in
    order, from the value [m]. *)
Definition fold_max_distance (m : Q) (l : list edge_output) : Q :=
  fold_left (fun acc eo => t_max_Q acc (eo_max_distance eo)) l m.
Definition fold_max_segments (m : nat) (l : list edge_output) : nat :=
  fold_left (fun acc eo => Nat.max acc (length (eo_segments eo))) l m.
Definition fold_max_recursion (m : nat) (l : list edge_output) : nat :=
  fold_left (fun acc eo => match eo_depth eo with Some k => Nat.max acc k | None => acc end) l m.

(** ** Sample inputs *)

(** Stand-ins for the floating point primitives, and M_PI to three
    decimals. *)
Definition sample_pi : Q := 355 # 113.
Definition sample_cos (x : Q) : Q := 1 - x * x / 2.
Definition sample_sin (x : Q) : Q := x.
Definition sample_magnitude (v : vec2) : Q := Qabs v.1 + Qabs v.2.
Definition sample_params : TessellationParams := mk_params (1 # 100) 10 true.

(** A contour of two edges: a half circle written by
    SegmentStorage::add_arc_segment, and its closing line; and a contour of
    one edge made of two line segments. *)
Definition sample_outs : list (list edge_output) :=
  [[mk_edge_output (add_arc_segment sample_pi sample_cos sample_sin (1, 0) (-1, 0) (0, 0) 1
                      (mk_range 0 sample_pi) [])
                   (1 # 1000) (Some 3%nat) starts_new_edge;
    mk_edge_output (add_line_segment (-1, 0) (1, 0) []) 0 None starts_new_edge];
   [mk_edge_output (add_line_segment (1, 1) (2, 2) (add_line_segment (0, 0) (1, 1) []))
                   0 None starts_new_edge]].

(** The output of an interpolator whose [produce_tessellation] writes two
    line segments that do not meet. *)
Definition gap_edge : edge_output :=
  mk_edge_output (add_line_segment (2, 0) (3, 0) (add_line_segment (0, 0) (1, 0) []))
                 0 None starts_new_edge.

(** The sum of two [unsigned int]s, which wraps modulo 2^32. *)
Definition uint32_add (a b : nat) : nat := N.to_nat ((N.of_nat a + N.of_nat b) mod 2 ^ 32)%N.

(** ** TessellatedPath::Refiner *)

Section Refinement.

Variables t_cos t_sin : Q -> Q.
Variable magnitude : vec2 -> Q.

(** The interpolators of a Path and the tessellation states they return. *)
Context {Interp TessState : Type}.

(** [interpolator_base::produce_tessellation]: the segments written to the
    SegmentStorage, [out_max_distance] and the returned state (null as
    [None]). *)
Variable produce_tessellation : Interp -> TessellationParams -> list segment * Q * option TessState.
(** [tessellation_state::resume_tessellation]: the segments written, the
    [out_max_distance], and the state object as it is after the call (the
    call advances it in place). *)
Variable resume_tessellation : TessState -> TessellationParams -> list segment * Q * TessState.
Variable recursion_depth : TessState -> nat.
Variable edge_type : Interp -> edge_type_t.

(** RefinerPrivate::PerEdge *)
Record PerEdge := mk_PerEdge {
  m_tess_state : option TessState;
  m_interpolator : Interp
}.

(** RefinerPrivate; [m_contours] lists the [m_edges] of each PerContour. *)
Record RefinerPrivate := mk_RefinerPrivate {
  m_path : TessellatedPathPrivate;
  m_contours : list (list PerEdge)
}.

(** The body of the [for (e ...)] loop of
    TessellatedPath(const Path&, TessellationParams, Refiner* ref): what is handed
    to [add_edge] and what the refiner records for the edge. *)
Definition path_edge (TP : TessellationParams) (interpolator : Interp) : edge_output * PerEdge :=
  let '(segs, tmp, tess_state) := produce_tessellation interpolator TP in
  (mk_edge_output segs tmp (recursion_depth <$> tess_state) (edge_type interpolator),
   mk_PerEdge tess_state interpolator).

(** TessellatedPath(const Path &input, TessellationParams TP, Refiner *ref):
    [input] lists the interpolators of each contour; [ref] says whether a
    refiner is asked for; the refiner, when one is created, is returned with
    the path. *)
Definition TessellatedPath_from_path (input : list (list Interp)) (TP : TessellationParams)
    (ref : bool) : option (TessellatedPathPrivate * option RefinerPrivate) :=
  if Nat.eqb (length input) 0 then Some (TessellatedPathPrivate_init (length input) TP, None)
  else
    let edges := fmap (M := list) (fmap (M := list) (path_edge TP)) input in
    d ← build_tessellated_path t_cos t_sin magnitude TP (fmap (M := list) (fmap (M := list) fst) edges);
    Some (d, if ref then Some (mk_RefinerPrivate d (fmap (M := list) (fmap (M := list) snd) edges)) else None).

(** The body of the [for (e ...)] loop of TessellatedPath(Refiner*, float,
    unsigned int): resume the saved state when there is one (the refiner
    shares the state object, so it sees it advanced), else tessellate the
    interpolator afresh and drop the state it returns. *)
Definition refine_edge (params : TessellationParams) (edge : PerEdge) : edge_output * PerEdge :=
  match m_tess_state edge with
  | Some st =>
      let '(segs, tmp, st') := resume_tessellation st params in
      (mk_edge_output segs tmp (Some (recursion_depth st')) (edge_type (m_interpolator edge)),
       mk_PerEdge (Some st') (m_interpolator edge))
  | None =>
      let '(segs, tmp, _) := produce_tessellation (m_interpolator edge) params in
      (mk_edge_output segs tmp None (edge_type (m_interpolator edge)), edge)
  end.

(** TessellatedPath(Refiner *p, float max_distance, unsigned int
    additional_recursion_count): the new path and the refiner's contours after
    the call. *)
Definition TessellatedPath_from_refiner (ref_d : RefinerPrivate) (md : Q) (additional : nat)
    : option (TessellatedPathPrivate * list (list PerEdge)) :=
  let params := mk_params md (uint32_add (max_recursion (m_path ref_d)) additional)
                          (m_allow_arcs (m_params (m_path ref_d))) in
  if Nat.eqb (length (m_contours ref_d)) 0
  then Some (TessellatedPathPrivate_init (length (m_contours ref_d)) params, m_contours ref_d)
  else
    let edges := fmap (M := list) (fmap (M := list) (refine_edge params)) (m_contours ref_d) in
    d ← build_tessellated_path t_cos t_sin magnitude params (fmap (M := list) (fmap (M := list) fst) edges);
    Some (d, fmap (M := list) (fmap (M := list) snd) edges).

(** Refiner::refine_tessellation *)
Definition refine_tessellation (d : RefinerPrivate) (md : Q) (additional : nat)
    : option RefinerPrivate :=
  if Qltb md (max_distance (m_path d))
  then '(p, cs) ← TessellatedPath_from_refiner d md additional; Some (mk_RefinerPrivate p cs)
  else Some d.

(** The refiners a program can hold: the one the Path constructor creates
    (for a Path whose contours have at least one edge each), and the result
    of [refine_tessellation] on one of them. *)
Inductive refiner_reachable : RefinerPrivate -> Prop :=
  | reachable_from_path (input : list (list Interp)) (TP : TessellationParams)
      (tp : TessellatedPathPrivate) (r : RefinerPrivate) :
      Forall (fun c => c <> []) input ->
      TessellatedPath_from_path input TP true = Some (tp, Some r) ->
      refiner_reachable r
  | reachable_refine (r : RefinerPrivate) (md : Q) (additional : nat) (r' : RefinerPrivate) :
      refiner_reachable r -> refine_tessellation r md additional = Some r' ->
      refiner_reachable r'.

End Refinement.

Arguments mk_PerEdge {Interp TessState}.
Arguments mk_RefinerPrivate {Interp TessState}.

(** ** TessellatedPath::stroked and TessellatedPath::filled *)

(** [next_object] is the identity the next object created will get;
    creating a StrokedPath or FilledPath takes it and advances it. *)
Definition stroked (d : TessellatedPathPrivate) (next_object : nat)
    : nat * TessellatedPathPrivate * nat :=
  match m_stroked d with
  | Some p => (p, d, next_object)
  | None => (next_object,
             mk_tpp (m_edges d) (m_segment_data d) (m_params d) (tpp_max_distance d)
                    (m_has_arcs d) (m_max_segments d) (tpp_max_recursion d)
                    (Some next_object) (m_filled d),
             Datatypes.S next_object)
  end.

Definition filled (d : TessellatedPathPrivate) (next_object : nat)
    : option nat * TessellatedPathPrivate * nat :=
  if negb (bool_decide (is_Some (m_filled d))) && negb (m_has_arcs d)
  then (Some next_object,
        mk_tpp (m_edges d) (m_segment_data d) (m_params d) (tpp_max_distance d)
               (m_has_arcs d) (m_max_segments d) (tpp_max_recursion d)
               (m_stroked d) (Some next_object),
        Datatypes.S next_object)
  else (m_filled d, d, next_object).

(** [n] calls of an accessor in a row: what each returns, and the state
    after the last. *)
Fixpoint call_seq {R} (acc : TessellatedPathPrivate -> nat -> R * TessellatedPathPrivate * nat)
    (n : nat) (d : TessellatedPathPrivate) (next_object : nat)
    : list R * TessellatedPathPrivate * nat :=
  match n with
  | O => ([], d, next_object)
  | Datatypes.S n' =>
      let '(x, d1, next1) := acc d next_object in
      let '(xs, d2, next2) := call_seq acc n' d1 next1 in
      (x :: xs, d2, next2)
  end.

(** The TessellatedPath objects a program can hold: those the two
    constructors build (from a Path, and from a Refiner through
    [refine_tessellation]), and the object as it is after a call of
    [stroked()] or [filled()] on one of them. *)
Inductive tp_reachable : TessellatedPathPrivate -> Prop :=
  | tp_reachable_from_path {Interp TessState : Type} (t_cos t_sin : Q -> Q) (magnitude : vec2 -> Q)
      (produce_tessellation : Interp -> TessellationParams -> list segment * Q * option TessState)
      (recursion_depth : TessState -> nat) (edge_type : Interp -> edge_type_t)
      (input : list (list Interp)) (TP : TessellationParams) (ref : bool)
      (tp : TessellatedPathPrivate) (r : option (@RefinerPrivate Interp TessState)) :
      TessellatedPath_from_path t_cos t_sin magnitude produce_tessellation recursion_depth
        edge_type input TP ref = Some (tp, r) ->
      tp_reachable tp
  | tp_reachable_refine {Interp TessState : Type} (t_cos t_sin : Q -> Q) (magnitude : vec2 -> Q)
      (produce_tessellation : Interp -> TessellationParams -> list segment * Q * option TessState)
      (resume_tessellation : TessState -> TessellationParams -> list segment * Q * TessState)
      (recursion_depth : TessState -> nat) (edge_type : Interp -> edge_type_t)
      (r : @RefinerPrivate Interp TessState) (md : Q) (additional : nat) (r' : RefinerPrivate) :
      refiner_reachable t_cos t_sin magnitude produce_tessellation resume_tessellation
        recursion_depth edge_type r ->
      refine_tessellation t_cos t_sin magnitude produce_tessellation resume_tessellation
        recursion_depth edge_type r md additional = Some r' ->
      tp_reachable (m_path r')
  | tp_reachable_stroked (d : TessellatedPathPrivate) (next_object : nat) :
      tp_reachable d -> tp_reachable (stroked d next_object).1.2
  | tp_reachable_filled (d : TessellatedPathPrivate) (next_object : nat) :
      tp_reachable d -> tp_reachable (filled d next_object).1.2.

(** ** glu-tess: vertices, the event queue and the event loop *)

(** GLUvertex: its coordinates in the sweep's frame. *)
Record GLUvertex := mk_GLUvertex { s : Q; t : Q }.

(** Modelled from the spec: [VertEq], [VertLeq] and [VertL1dist] are macros
    of geom.h, which is not among the sources.  [VertLeq] is the
    lexicographic order (s first, then t) that the spec and the comment of
    [glu_fastuidraw_gl_computeInterior] give the events, [VertEq] equality of
    both coordinates, [VertL1dist] the L1 distance its name says. *)
Definition VertEq (u v : GLUvertex) : bool := Qeq_bool (s u) (s v) && Qeq_bool (t u) (t v).
Definition VertLeq (u v : GLUvertex) : bool :=
  Qltb (s u) (s v) || (Qeq_bool (s u) (s v) && Qle_bool (t u) (t v)).
Definition VertL1dist (u v : GLUvertex) : Q := Qabs (s u - s v) + Qabs (t u - t v).

(** Modelled from the spec: the priority queue of vertex events
    (priorityq.cpp is not among the sources) as the list of the pending
    vertices.  [pqExtractMin] removes and returns a [VertLeq]-least one,
    [pqMinimum] returns the vertex [pqExtractMin] would remove. *)
Fixpoint pqExtractMin (pq : list GLUvertex) : option (GLUvertex * list GLUvertex) :=
  match pq with
  | [] => None
  | v :: rest =>
      match pqExtractMin rest with
      | None => Some (v, [])
      | Some (m, rest') => if VertLeq v m then Some (v, rest) else Some (m, v :: rest')
      end
  end.

Definition pqMinimum (pq : list GLUvertex) : option GLUvertex := fst <$> pqExtractMin pq.

(** What the loop of [glu_fastuidraw_gl_computeInterior] has in hand when it
    calls [SweepEvent]: the event [v], the queue right after [v] was
    extracted, the vertices merged into [v], the queue and the mesh that
    [SweepEvent] is called with, and the mesh when [v] was extracted. *)
Record sweep_call {Mesh : Type} := mk_sweep_call {
  sc_event : GLUvertex;
  sc_queue_after_extract : list GLUvertex;
  sc_merged : list GLUvertex;
  sc_queue : list GLUvertex;
  sc_mesh_before : Mesh;
  sc_mesh : Mesh
}.
Arguments sweep_call : clear implicits.

Section ComputeInterior.

Context {Mesh : Type}.

(** [SpliceMergeVertices(tess, v->anEdge, vNext->anEdge)] on the mesh. *)
Variable SpliceMergeVertices : GLUvertex -> GLUvertex -> Mesh -> Mesh.
(** [SweepEvent(tess, v)]: it may insert vertices into the queue and remove
    some, and changes the mesh. *)
Variable SweepEvent : GLUvertex -> list GLUvertex -> Mesh -> list GLUvertex * Mesh.

(** The inner [for (;;)] loop: the merged vertices, the queue and the mesh
    on exit.  Each pass removes a vertex from the queue, so [fuel] the length
    of the queue lets it run to its exit. *)
Fixpoint merge_loop (fuel : nat) (v : GLUvertex) (pq : list GLUvertex) (mesh : Mesh)
    : list GLUvertex * list GLUvertex * Mesh :=
  match fuel with
  | O => ([], pq, mesh)
  | Datatypes.S f =>
      match pqMinimum pq with
      | None => ([], pq, mesh)
      | Some vNext =>
          if negb (VertEq vNext v) then ([], pq, mesh) else
          match pqExtractMin pq with
          | None => ([], pq, mesh)
          | Some (vNext', pq') =>
              let '(merged, pq'', mesh') :=
                merge_loop f v pq' (SpliceMergeVertices v vNext' mesh) in
              (vNext' :: merged, pq'', mesh')
          end
      end
  end.

(** The [while] loop of [glu_fastuidraw_gl_computeInterior], run for at most
    [fuel] events: the calls of [SweepEvent], the queue and the mesh. *)
Fixpoint computeInterior_loop (fuel : nat) (pq : list GLUvertex) (mesh : Mesh)
    : list (sweep_call Mesh) * list GLUvertex * Mesh :=
  match fuel with
  | O => ([], pq, mesh)
  | Datatypes.S f =>
      match pqExtractMin pq with
      | None => ([], pq, mesh)
      | Some (v, pq1) =>
          let '(merged, pq2, mesh2) := merge_loop (length pq1) v pq1 mesh in
          let '(pq3, mesh3) := SweepEvent v pq2 mesh2 in
          let '(calls, pq4, mesh4) := computeInterior_loop f pq3 mesh3 in
          (mk_sweep_call Mesh v pq1 merged pq2 mesh mesh2 :: calls, pq4, mesh4)
      end
  end.

End ComputeInterior.

(** ** glu-tess: CheckForIntersect *)

Section Intersect.

(** EdgeSign and glu_fastuidraw_gl_edgeIntersect of geom.cpp. *)
Variable EdgeSign : GLUvertex -> GLUvertex -> GLUvertex -> Q.
Variable edgeIntersect : GLUvertex -> GLUvertex -> GLUvertex -> GLUvertex -> GLUvertex.

(** VertexWeights: [weights[0]] and [weights[1]]. *)
Definition VertexWeights (isect org dst : GLUvertex) : Q * Q :=
  let t1 := VertL1dist org isect in
  let t2 := VertL1dist dst isect in
  ((1 # 2) * t2 / (t1 + t2), (1 # 2) * t1 / (t1 + t2)).

(** GetIntersectData: the [weights] it hands to CallCombine (the client ids
    are not modelled). *)
Definition GetIntersectData (isect orgUp dstUp orgLo dstLo : GLUvertex) : list Q :=
  let '(w0, w1) := VertexWeights isect orgUp dstUp in
  let '(w2, w3) := VertexWeights isect orgLo dstLo in
  [w0; w1; w2; w3].

(** How CheckForIntersect ends: no intersection, the easy case
    (CheckForRightSplice), the very unusual case, or the general case with
    the new vertex and the weights of its combine call. *)
Inductive intersect_result :=
  | no_intersection
  | right_splice
  | wrong_side
  | new_vertex (isect : GLUvertex) (weights : list Q).

(** CheckForIntersect on the region whose upper edge runs from [orgUp] to
    [dstUp] and whose lower edge from [orgLo] to [dstLo], at the sweep event
    [event]; [same_org] is the pointer test [orgUp == orgLo].  The
    assertions and the mesh operations are not modelled. *)
Definition CheckForIntersect (event orgUp dstUp orgLo dstLo : GLUvertex) (same_org : bool)
    : intersect_result :=
  if same_org then no_intersection else
  let tMinUp := if Qle_bool (t orgUp) (t dstUp) then t orgUp else t dstUp in
  let tMaxLo := if Qle_bool (t orgLo) (t dstLo) then t dstLo else t orgLo in
  if Qltb tMaxLo tMinUp then no_intersection else
  if (if VertLeq orgUp orgLo then Qltb 0 (EdgeSign dstLo orgUp orgLo)
      else Qltb (EdgeSign dstUp orgLo orgUp) 0) then no_intersection else
  let isect0 := edgeIntersect dstUp orgUp dstLo orgLo in
  let isect1 := if VertLeq isect0 event then mk_GLUvertex (s event) (t event) else isect0 in
  let orgMin := if VertLeq orgUp orgLo then orgUp else orgLo in
  let isect := if VertLeq orgMin isect1 then mk_GLUvertex (s orgMin) (t orgMin) else isect1 in
  if VertEq isect orgUp || VertEq isect orgLo then right_splice else
  if (negb (VertEq dstUp event) && Qle_bool 0 (EdgeSign dstUp event isect))
     || (negb (VertEq dstLo event) && Qle_bool (EdgeSign dstLo event isect) 0)
  then wrong_side
  else new_vertex isect (GetIntersectData isect orgUp dstUp orgLo dstLo).

End Intersect.

(** [v] lies on the segment from [a] to [b]. *)
Definition on_segment (v a b : GLUvertex) : Prop :=
  exists lam, 0 <= lam <= 1 /\ s v == s a + lam * (s b - s a) /\ t v == t a + lam * (t b - t a).

(** ** More sample inputs *)

(** Interpolators given by the segments they write, with states that
    remember them and count the resumptions. *)
Definition sample_produce (i : list segment) (TP : TessellationParams)
    : list segment * Q * option (list segment * nat) :=
  (i, 1 # 10, Some (i, 0%nat)).
Definition sample_resume (st : list segment * nat) (TP : TessellationParams)
    : list segment * Q * (list segment * nat) :=
  (st.1, m_max_distance TP, (st.1, Datatypes.S st.2)).
Definition sample_depth (st : list segment * nat) : nat := st.2.
Definition sample_edge_type (i : list segment) : edge_type_t := starts_new_edge.
Definition sample_input : list (list (list segment)) :=
  [[add_line_segment (0, 0) (1, 0) []; add_line_segment (1, 0) (0, 0) []]].

(** EdgeSign as the GLU library has it, and the intersection of the lines
    through two edges. *)
Definition sample_EdgeSign (u v w : GLUvertex) : Q :=
  let gapL := s v - s u in
  let gapR := s w - s v in
  if Qltb 0 (gapL + gapR) then (t v - t w) * gapL + (t v - t u) * gapR else 0.
Definition sample_edgeIntersect (o1 d1 o2 d2 : GLUvertex) : GLUvertex :=
  let a1 := s d1 - s o1 in let b1 := t d1 - t o1 in
  let a2 := s d2 - s o2 in let b2 := t d2 - t o2 in
  let den := a1 * b2 - b1 * a2 in
  if Qeq_bool den 0 then o1 else
  let k := ((s o2 - s o1) * b2 - (t o2 - t o1) * a2) / den in
  mk_GLUvertex (s o1 + k * a1) (t o1 + k * b1).

(** Two edges that cross at (1, 0), right of the event (0, 0). *)
Definition sample_event : GLUvertex := mk_GLUvertex 0 0.
Definition sample_orgUp : GLUvertex := mk_GLUvertex 3 (-1).
Definition sample_dstUp : GLUvertex := mk_GLUvertex (-1) 1.
Definition sample_orgLo : GLUvertex := mk_GLUvertex 3 1.
Definition sample_dstLo : GLUvertex := mk_GLUvertex (-1) (-1).

(** * Proofs *)

Lemma Qltb_spec (a b : Q) : Qltb a b = true <-> a < b.
Proof.
  unfold Qltb. rewrite negb_true_iff. split; intro H.
  - apply Qnot_le_lt. intro H'. apply Qle_bool_iff in H'. congruence.
  - destruct (Qle_bool b a) eqn:E; [|reflexivity].
    apply Qle_bool_iff in E. exfalso. apply (Qlt_not_le a b); assumption.
Qed.

Section ArcProofs.

Variable M_PI : Q.
Hypothesis M_PI_pos : 0 < M_PI.
Variables t_cos t_sin : Q -> Q.

Lemma arc_segment_loop_app k i cnt theta da st en c r t d :
  exists new, arc_segment_loop t_cos t_sin k i cnt theta da st en c r t d = d ++ new
    /\ length new = k
    /\ Forall (fun Sg => m_type Sg = arc_segment /\ arc_span Sg == da) new.
Proof.
  revert i theta d; induction k as [|k IH]; intros i theta d; simpl.
  - exists []. rewrite app_nil_r. auto.
  - match goal with |- context [arc_segment_loop _ _ k _ _ _ _ _ _ _ _ _ (d ++ [?Sg])] =>
      destruct (IH (Datatypes.S i) (theta + da) (d ++ [Sg])) as (new & E & L & F);
      exists (Sg :: new) end.
    rewrite E, <- app_assoc. split; [reflexivity|]. split; [simpl; lia|].
    constructor; [|exact F]. split; [reflexivity|]. unfold arc_span; simpl; ring.
Qed.

Lemma max_arc_pos : 0 < max_arc M_PI.
Proof. unfold max_arc. apply Qlt_shift_div_l; [reflexivity|]. lra. Qed.

Lemma arc_count_floor (r : range_type Q) :
  inject_Z (Z.of_nat (arc_count M_PI r))
  = inject_Z (Qfloor (Qabs (m_end r - m_begin r) / max_arc M_PI) + 1).
Proof.
  unfold arc_count. f_equal.
  assert (Hx : 0 <= Qabs (m_end r - m_begin r) / max_arc M_PI).
  { apply Qle_shift_div_l; [exact max_arc_pos|]. rewrite Qmult_0_l. apply Qabs_nonneg. }
  assert (Hf : (0 <= Qfloor (Qabs (m_end r - m_begin r) / max_arc M_PI))%Z).
  { change 0%Z with (Qfloor 0). apply Qfloor_resp_le. exact Hx. }
  lia.
Qed.

Lemma arc_da_bound (r : range_type Q) :
  Qabs ((m_end r - m_begin r) / inject_Z (Z.of_nat (arc_count M_PI r))) <= max_arc M_PI.
Proof.
  rewrite arc_count_floor.
  set (a := Qabs (m_end r - m_begin r)).
  set (m := max_arc M_PI).
  set (x := a / m).
  set (c := inject_Z (Qfloor x + 1)).
  assert (Hm : 0 < m) by exact max_arc_pos.
  assert (Ha : 0 <= a) by apply Qabs_nonneg.
  assert (Hx : 0 <= x) by (apply Qle_shift_div_l; [exact Hm|]; rewrite Qmult_0_l; exact Ha).
  assert (Hxc : x < c) by apply Qlt_floor.
  assert (Hc0 : 0 < c) by (eapply Qle_lt_trans; eauto).
  unfold Qdiv. rewrite Qabs_Qmult, Qabs_Qinv, (Qabs_pos c) by (apply Qlt_le_weak; exact Hc0).
  change (a / c <= m). apply Qle_shift_div_r; [exact Hc0|].
  assert (Hxm : x * m == a) by (unfold x; field; intro H; rewrite H in Hm; discriminate).
  apply (Qmult_lt_r x c m Hm) in Hxc. lra.
Qed.

Lemma add_tessellated_arc_segment_app st en c r aa t d :
  exists new, add_tessellated_arc_segment M_PI t_cos t_sin st en c r aa t d = d ++ new
    /\ length new = arc_count M_PI aa /\ Forall (small_arc M_PI) new.
Proof.
  unfold add_tessellated_arc_segment.
  match goal with |- context [arc_segment_loop _ _ ?k ?i ?cnt ?th ?da ?st ?en ?c ?r ?t ?d] =>
    destruct (arc_segment_loop_app k i cnt th da st en c r t d) as (new & E & L & F) end.
  exists new. rewrite E. split; [reflexivity|]. split; [exact L|].
  eapply Forall_impl; [exact F|]. intros Sg [Ht Hs]. split; [exact Ht|].
  rewrite Hs. apply arc_da_bound.
Qed.

Lemma arc_count_ge_2 (aa : range_type Q) :
  M_PI / 4 < Qabs (m_end aa - m_begin aa) -> (2 <= arc_count M_PI aa)%nat.
Proof.
  intro H. unfold arc_count.
  assert (H1 : 1 <= Qabs (m_end aa - m_begin aa) / max_arc M_PI).
  { apply Qle_shift_div_l; [exact max_arc_pos|]. unfold max_arc. lra. }
  apply Qfloor_resp_le in H1. change (Qfloor 1) with 1%Z in H1. lia.
Qed.

Lemma crit_loop_app k i ri st en c r aa pa pp t d :
  match crit_loop M_PI t_cos t_sin k i ri st en c r aa pa pp t d with
  | (pa', _, _, d') =>
      exists new, d' = d ++ new /\ Forall (small_arc M_PI) new
        /\ ((new = [] /\ pa' = pa) \/ (1 <= length new)%nat)
  end.
Proof.
  revert i ri pa pp t d; induction k as [|k IH]; intros i ri pa pp t d; cbn [crit_loop].
  - exists []. rewrite app_nil_r. auto.
  - destruct (crit_choice M_PI aa i ri) as [K [|]]; [|apply IH].
    match goal with
    | |- context [crit_loop _ _ _ k _ _ _ _ _ _ _ ?pa2 ?pp2 ?t2
                    (add_tessellated_arc_segment _ _ _ ?s1 ?e1 ?c1 ?r1 ?aa1 ?t1 d)] =>
        destruct (add_tessellated_arc_segment_app s1 e1 c1 r1 aa1 t1 d) as (n1 & E1 & L1 & F1);
        rewrite E1;
        specialize (IH (Datatypes.S i) (Nat.pred ri) pa2 pp2 t2 (d ++ n1));
        destruct (crit_loop _ _ _ k _ _ _ _ _ _ _ pa2 pp2 t2 (d ++ n1))
          as [[[pa' pp'] t'] d']
    end.
    destruct IH as (n2 & E2 & F2 & _).
    exists (n1 ++ n2). rewrite E2, app_assoc. split; [reflexivity|].
    split; [apply Forall_app; auto|].
    right. rewrite length_app. unfold arc_count in L1. lia.
Qed.

(** C2: every arc segment SegmentStorage::add_arc_segment appends spans an
    angle of at most [M_PI/4] (after the split at the critical angles), and an
    arc whose angle exceeds [M_PI/4] is appended as at least 2 segments. *)
Theorem add_arc_segment_pieces (st en c : vec2) (r : Q) (aa : range_type Q)
    (d : list segment) :
  exists emitted,
    add_arc_segment M_PI t_cos t_sin st en c r aa d = d ++ emitted
    /\ Forall (fun Sg => m_type Sg = arc_segment /\ Qabs (arc_span Sg) <= M_PI / 4) emitted
    /\ (M_PI / 4 < Qabs (m_end aa - m_begin aa) -> (2 <= length emitted)%nat).
Proof.
  unfold add_arc_segment.
  pose proof (crit_loop_app 7 0 6 st en c r aa (m_begin aa) st false d) as H.
  destruct (crit_loop M_PI t_cos t_sin 7 0 6 st en c r aa (m_begin aa) st false d)
    as [[[pa pp] t] d'].
  destruct H as (n1 & E1 & F1 & Hc).
  destruct (add_tessellated_arc_segment_app pp en c r (mk_range pa (m_end aa)) t d')
    as (n2 & E2 & L2 & F2).
  exists (n1 ++ n2). rewrite E2, E1, app_assoc. split; [reflexivity|].
  split; [apply Forall_app; split; assumption|].
  intro Hbig. rewrite length_app.
  destruct Hc as [[-> ->] | Hn1].
  - simpl. rewrite L2. apply arc_count_ge_2. exact Hbig.
  - rewrite L2. unfold arc_count. lia.
Qed.

End ArcProofs.

Lemma joins_app p l1 m l2 q : joins p l1 m -> joins m l2 q -> joins p (l1 ++ l2) q.
Proof.
  revert p; induction l1 as [|x l1 IH]; intros p H1 H2; simpl in *.
  - subst. exact H2.
  - destruct H1 as [Hx H1]. split; [exact Hx|]. eapply IH; eassumption.
Qed.

Lemma joins_contiguous p l q : joins p l q -> contiguous l.
Proof.
  revert p; induction l as [|x l IH]; intros p H i s1 s2 H1 H2; [discriminate|].
  destruct H as [_ H]. destruct i as [|i]; simpl in H1, H2.
  - injection H1 as <-. destruct l as [|y l]; [discriminate|]. injection H2 as <-.
    destruct H as [Hy _]. symmetry. exact Hy.
  - eapply IH; eassumption.
Qed.

Lemma map_lookup' {A B} (f : A -> B) (l : list A) (i : nat) :
  List.map f l !! i = f <$> l !! i.
Proof. revert i; induction l as [|x l IH]; intros [|i]; simpl; auto. Qed.

(** Contiguity only depends on the start and end points. *)
Lemma contiguous_maps (l1 l2 : list segment) :
  List.map m_start_pt l1 = List.map m_start_pt l2 ->
  List.map m_end_pt l1 = List.map m_end_pt l2 ->
  contiguous l2 -> contiguous l1.
Proof.
  intros Hs He Hc i s1 s2 H1 H2.
  pose proof (f_equal (fun l => l !! i) He) as E1. simpl in E1.
  pose proof (f_equal (fun l => l !! Datatypes.S i) Hs) as E2. simpl in E2.
  rewrite !map_lookup', H1 in E1. rewrite !map_lookup', H2 in E2.
  destruct (l2 !! i) as [t1|] eqn:T1; [|discriminate].
  destruct (l2 !! Datatypes.S i) as [t2|] eqn:T2; [|discriminate].
  injection E1 as E1. injection E2 as E2. rewrite E1, E2. eapply Hc; eassumption.
Qed.

Section ArcChain.

Variable M_PI : Q.
Variables t_cos t_sin : Q -> Q.

Lemma arc_segment_loop_joins k :
  forall i cnt theta da st en c r t d,
  (i + k)%nat = cnt -> (1 <= k)%nat ->
  exists new, arc_segment_loop t_cos t_sin k i cnt theta da st en c r t d = d ++ new
    /\ joins (if Nat.eqb i 0 then st else m_end_pt (List.last d default_segment)) new en.
Proof.
  induction k as [|k IH]; intros i cnt theta da st en c r t d Hk H1; [lia|].
  cbn [arc_segment_loop].
  match goal with |- context [arc_segment_loop _ _ k _ _ _ _ _ _ _ _ _ (d ++ [?Sg])] =>
    set (X := Sg) end.
  destruct k as [|k'].
  - exists [X]. cbn [arc_segment_loop]. split; [reflexivity|]. simpl. split; [reflexivity|].
    unfold X; simpl. replace (Nat.eqb (i + 1) cnt) with true by (symmetry; apply Nat.eqb_eq; lia).
    reflexivity.
  - destruct (IH (Datatypes.S i) cnt (theta + da) da st en c r t (d ++ [X])) as (new & E & J);
      [lia|lia|].
    exists (X :: new). rewrite E, <- app_assoc. split; [reflexivity|].
    simpl in J. rewrite List.last_last in J. split; [reflexivity|exact J].
Qed.

Lemma add_tessellated_arc_segment_joins st en c r aa t d :
  exists new, add_tessellated_arc_segment M_PI t_cos t_sin st en c r aa t d = d ++ new
    /\ joins st new en.
Proof.
  unfold add_tessellated_arc_segment.
  apply arc_segment_loop_joins; [reflexivity|unfold arc_count; lia].
Qed.

Lemma crit_loop_joins k i ri st en c r aa pa pp t d :
  match crit_loop M_PI t_cos t_sin k i ri st en c r aa pa pp t d with
  | (pa', pp', _, d') => exists new, d' = d ++ new /\ joins pp new pp'
  end.
Proof.
  revert i ri pa pp t d; induction k as [|k IH]; intros i ri pa pp t d; cbn [crit_loop].
  - exists []. rewrite app_nil_r. split; reflexivity.
  - destruct (crit_choice M_PI aa i ri) as [K [|]]; [|apply IH].
    match goal with
    | |- context [crit_loop _ _ _ k _ _ _ _ _ _ _ ?pa2 ?pp2 ?t2
                    (add_tessellated_arc_segment _ _ _ ?s1 ?e1 ?c1 ?r1 ?aa1 ?t1 d)] =>
        destruct (add_tessellated_arc_segment_joins s1 e1 c1 r1 aa1 t1 d) as (n1 & E1 & J1);
        rewrite E1;
        specialize (IH (Datatypes.S i) (Nat.pred ri) pa2 pp2 t2 (d ++ n1));
        destruct (crit_loop _ _ _ k _ _ _ _ _ _ _ pa2 pp2 t2 (d ++ n1))
          as [[[pa' pp'] t'] d']
    end.
    destruct IH as (n2 & E2 & J2).
    exists (n1 ++ n2). rewrite E2, app_assoc. split; [reflexivity|].
    eapply joins_app; eassumption.
Qed.

Lemma add_arc_segment_joins st en c r aa d :
  exists emitted, add_arc_segment M_PI t_cos t_sin st en c r aa d = d ++ emitted
    /\ joins st emitted en.
Proof.
  unfold add_arc_segment.
  pose proof (crit_loop_joins 7 0 6 st en c r aa (m_begin aa) st false d) as H.
  destruct (crit_loop M_PI t_cos t_sin 7 0 6 st en c r aa (m_begin aa) st false d)
    as [[[pa pp] t] d'].
  destruct H as (n1 & E1 & J1).
  destruct (add_tessellated_arc_segment_joins pp en c r (mk_range pa (m_end aa)) t d')
    as (n2 & E2 & J2).
  exists (n1 ++ n2). rewrite E2, E1, app_assoc. split; [reflexivity|].
  eapply joins_app; eassumption.
Qed.

End ArcChain.

Section ConstructionProofs.

Variables t_cos t_sin : Q -> Q.
Variable magnitude : vec2 -> Q.

Lemma compute_local_segment_values_pts Sg :
  m_start_pt (compute_local_segment_values t_cos t_sin magnitude Sg) = m_start_pt Sg
  /\ m_end_pt (compute_local_segment_values t_cos t_sin magnitude Sg) = m_end_pt Sg.
Proof. unfold compute_local_segment_values. destruct (m_type Sg); split; reflexivity. Qed.

Lemma add_edge_loop_spec prev clen ha wr :
  let r := add_edge_loop t_cos t_sin magnitude prev clen ha wr in
  length r.1.1 = length wr
  /\ r.1.2 = fold_left addlen r.1.1 clen
  /\ (forall s, r.1.1 !! 0%nat = Some s ->
        m_distance_from_edge_start s = match prev with
                                       | None => 0
                                       | Some p => m_distance_from_edge_start p + m_length p
                                       end)
  /\ (forall (i : nat) s1 s2, r.1.1 !! i = Some s1 -> r.1.1 !! Datatypes.S i = Some s2 ->
        m_distance_from_edge_start s2 = m_distance_from_edge_start s1 + m_length s1)
  /\ List.map m_start_pt r.1.1 = List.map m_start_pt wr
  /\ List.map m_end_pt r.1.1 = List.map m_end_pt wr.
Proof.
  revert prev clen ha; induction wr as [|Sg wr IH]; intros prev clen ha; simpl.
  - repeat split; intros; try discriminate; reflexivity.
  - set (S2 := set_distances _ _ _).
    set (cl := clen + m_length (compute_local_segment_values t_cos t_sin magnitude Sg)).
    specialize (IH (Some S2) cl (ha || is_arc Sg)).
    destruct (add_edge_loop t_cos t_sin magnitude (Some S2) cl
                (ha || is_arc Sg) wr) as [[rest clen'] ha'] eqn:E.
    simpl in IH |- *. destruct IH as (L & F & H0 & Hc & Ps & Pe).
    destruct (compute_local_segment_values_pts Sg) as [Es Ee].
    repeat split.
    + lia.
    + exact F.
    + intros s Hs. injection Hs as <-. reflexivity.
    + intros [|i] s1 s2 H1 H2; simpl in H1, H2.
      * injection H1 as <-. apply H0. exact H2.
      * eapply Hc; eassumption.
    + simpl. rewrite Ps. f_equal. exact Es.
    + simpl. rewrite Pe. f_equal. exact Ee.
Qed.

Lemma set_edge_lengths_ok (l : list segment) :
  (forall s, l !! 0%nat = Some s -> m_distance_from_edge_start s = 0) ->
  (forall (i : nat) s1 s2, l !! i = Some s1 -> l !! Datatypes.S i = Some s2 ->
     m_distance_from_edge_start s2 = m_distance_from_edge_start s1 + m_length s1) ->
  edge_fields_ok (set_edge_lengths l).
Proof.
  intros H0 Hc. unfold set_edge_lengths.
  set (X := m_distance_from_edge_start (List.last l default_segment)
            + m_length (List.last l default_segment)).
  split; [|split].
  - intros s Hs. rewrite list_lookup_fmap in Hs.
    destruct (l !! 0%nat) eqn:E; simpl in Hs; [|discriminate].
    injection Hs as <-. cbn. apply H0. reflexivity.
  - intros i s1 s2 H1 H2. rewrite list_lookup_fmap in H1, H2.
    destruct (l !! i) eqn:E1; simpl in H1; [|discriminate].
    destruct (l !! Datatypes.S i) eqn:E2; simpl in H2; [|discriminate].
    injection H1 as <-. injection H2 as <-. simpl. eapply Hc; eassumption.
  - intros L HL s Hs. apply list_elem_of_fmap in Hs as (s0 & -> & _). simpl.
    destruct l as [|x l'] using rev_ind; [discriminate|].
    rewrite fmap_app, fmap_cons, fmap_nil, last_snoc in HL. injection HL as <-. simpl.
    unfold X. rewrite List.last_last. reflexivity.
Qed.

Lemma add_edge_spec d b o e wr md cl d1 b1 :
  add_edge t_cos t_sin magnitude d b o e wr md cl = Some (d1, b1) ->
  wr <> []
  /\ m_edges d1 = alter (alter (set_edge_range (mk_range (m_loc b) (m_loc b + length wr)%nat)) e) o
                        (m_edges d)
  /\ m_segment_data d1 = m_segment_data d
  /\ m_loc b1 = (m_loc b + length wr)%nat
  /\ m_ende b1 = m_ende b
  /\ m_temp b1 = m_temp b ++ [set_edge_lengths
        (add_edge_loop t_cos t_sin magnitude None (bs_contour_length b) (m_has_arcs d) wr).1.1]
  /\ bs_contour_length b1
       = (add_edge_loop t_cos t_sin magnitude None (bs_contour_length b) (m_has_arcs d) wr).1.2
  /\ ((e + 1)%nat = m_ende b -> bs_closed_contour_length b1 = bs_contour_length b1)
  /\ m_start_contour b1 = (if Nat.eqb e 0 then Some (length (m_temp b)) else m_start_contour b).
Proof.
  unfold add_edge. intro H.
  destruct (Nat.eqb (length wr) 0) eqn:E0; [discriminate|].
  destruct (add_edge_loop t_cos t_sin magnitude None (bs_contour_length b) (m_has_arcs d) wr)
    as [[segs clen] ha] eqn:EL.
  assert (Hwr : wr <> []) by (intros ->; discriminate).
  destruct (Nat.eqb (e + 2) (m_ende b)) eqn:E2;
    [|destruct (Nat.eqb (e + 1) (m_ende b)) eqn:E1];
    injection H as <- <-; simpl; repeat split; try assumption; try reflexivity.
  - intro He. apply Nat.eqb_eq in E2. lia.
  - intro He. apply Nat.eqb_neq in E1. lia.
Qed.

Lemma fold_addlen_fmap (f : segment -> segment) (l : list segment) (c : Q) :
  (forall s, m_length (f s) = m_length s) ->
  fold_left addlen (f <$> l) c = fold_left addlen l c.
Proof.
  intro Hf. revert c; induction l as [|x l IH]; intro c; simpl; [reflexivity|].
  unfold addlen at 2 4. rewrite Hf. apply IH.
Qed.

(** The segments [add_edge] stores for one edge. *)
Lemma add_edge_segments_ok clen ha wr :
  let p := set_edge_lengths (add_edge_loop t_cos t_sin magnitude None clen ha wr).1.1 in
  length p = length wr
  /\ edge_fields_ok p
  /\ List.map m_start_pt p = List.map m_start_pt wr
  /\ List.map m_end_pt p = List.map m_end_pt wr
  /\ fold_left addlen p clen = (add_edge_loop t_cos t_sin magnitude None clen ha wr).1.2.
Proof.
  destruct (add_edge_loop_spec None clen ha wr) as (L & F & H0 & Hc & Ps & Pe).
  unfold set_edge_lengths. cbv zeta.
  refine (conj _ (conj _ (conj _ (conj _ _)))).
  - rewrite length_fmap. exact L.
  - apply set_edge_lengths_ok; assumption.
  - rewrite <- Ps. rewrite <- list_fmap_compose. reflexivity.
  - rewrite <- Pe. rewrite <- list_fmap_compose. reflexivity.
  - rewrite fold_addlen_fmap by reflexivity. symmetry. exact F.
Qed.

Lemma alter_middle {A} (f : A -> A) (pre post : list A) (y : A) (i : nat) :
  length pre = i -> alter f i (pre ++ y :: post) = pre ++ f y :: post.
Proof. intros <-. rewrite <- (Nat.add_0_r (length pre)), alter_app_r. reflexivity. Qed.

Lemma add_edges_spec d b o e ende edges d' b' Eb pre rest0 Ea :
  add_edges t_cos t_sin magnitude d b o e ende edges = Some (d', b') ->
  m_edges d = Eb ++ (pre ++ rest0) :: Ea -> length Eb = o -> length pre = e ->
  length rest0 = length edges -> m_ende b = ende ->
  exists P,
    Forall2 edge_rel P edges
    /\ m_edges d' = Eb ++ (pre ++ zip_with mk_Edge (chain_ranges (m_loc b) P)
                                               (eo_edge_type <$> edges)) :: Ea
    /\ m_segment_data d' = m_segment_data d
    /\ m_temp b' = m_temp b ++ P
    /\ m_loc b' = (m_loc b + length (concat P))%nat
    /\ bs_contour_length b' = fold_left addlen (concat P) (bs_contour_length b)
    /\ m_ende b' = ende
    /\ (edges = [] -> b' = b)
    /\ (edges <> [] -> (e + length edges)%nat = ende ->
          bs_closed_contour_length b' = bs_contour_length b')
    /\ (e <> 0%nat -> m_start_contour b' = m_start_contour b)
    /\ (e = 0%nat -> edges <> [] -> m_start_contour b' = Some (length (m_temp b))).
Proof.
  revert d b e pre rest0; induction edges as [|eo rest IH];
    intros d b e pre rest0 H Hd Ho He Hr Hende; simpl in H.
  - injection H as <- <-. destruct rest0; [|discriminate].
    exists []. simpl. rewrite !app_nil_r, Nat.add_0_r. rewrite app_nil_r in Hd.
    repeat split; auto; intros; exfalso; auto.
  - destruct (add_edge t_cos t_sin magnitude _ b o e (eo_segments eo) (eo_max_distance eo)
                (Nat.eqb (e + 1) ende)) as [[d1 b1]|] eqn:EA; [|discriminate].
    simpl in H.
    apply add_edge_spec in EA as (Hne & E1 & D1 & L1 & N1 & T1 & C1 & Cl1 & S1).
    assert (Ed0 : m_edges (match eo_depth eo with
                | None => d
                | Some k => mk_tpp (m_edges d) (m_segment_data d) (m_params d)
                              (tpp_max_distance d) (m_has_arcs d) (m_max_segments d)
                              (Nat.max (tpp_max_recursion d) k) (m_stroked d) (m_filled d)
                end) = m_edges d) by (destruct (eo_depth eo); reflexivity).
    assert (Sd0 : m_segment_data (match eo_depth eo with
                | None => d
                | Some k => mk_tpp (m_edges d) (m_segment_data d) (m_params d)
                              (tpp_max_distance d) (m_has_arcs d) (m_max_segments d)
                              (Nat.max (tpp_max_recursion d) k) (m_stroked d) (m_filled d)
                end) = m_segment_data d) by (destruct (eo_depth eo); reflexivity).
    rewrite Ed0, Hd in E1. rewrite Sd0 in D1.
    destruct rest0 as [|y rest0]; [discriminate|]. simpl in Hr.
    set (r := mk_range (m_loc b) (m_loc b + length (eo_segments eo))%nat) in E1.
    rewrite alter_app_r_alt in E1 by lia. rewrite <- Ho, Nat.sub_diag in E1. simpl in E1.
    rewrite alter_middle in E1 by exact He.
    edestruct (IH _ b1 (Datatypes.S e) (pre ++ [mk_Edge r (eo_edge_type eo)]) rest0 H)
      as (P' & F' & E' & D' & T' & L' & C' & N' & Nil' & Cl' & S' & _).
    { simpl. rewrite E1, alter_app_r_alt by lia. rewrite <- Ho, Nat.sub_diag. simpl.
      rewrite alter_middle by exact He. rewrite <- app_assoc. reflexivity. }
    { exact Ho. } { rewrite length_app, He. simpl. lia. } { lia. } { rewrite N1. exact Hende. }
    set (p := set_edge_lengths (add_edge_loop t_cos t_sin magnitude None (bs_contour_length b)
                (m_has_arcs (match eo_depth eo with
                | None => d
                | Some k => mk_tpp (m_edges d) (m_segment_data d) (m_params d)
                              (tpp_max_distance d) (m_has_arcs d) (m_max_segments d)
                              (Nat.max (tpp_max_recursion d) k) (m_stroked d) (m_filled d)
                end)) (eo_segments eo)).1.1) in T1.
    destruct (add_edge_segments_ok (bs_contour_length b)
                (m_has_arcs (match eo_depth eo with
                | None => d
                | Some k => mk_tpp (m_edges d) (m_segment_data d) (m_params d)
                              (tpp_max_distance d) (m_has_arcs d) (m_max_segments d)
                              (Nat.max (tpp_max_recursion d) k) (m_stroked d) (m_filled d)
                end)) (eo_segments eo)) as (Lp & Fp & Ps & Pe & Cp).
    fold p in Lp, Fp, Ps, Pe, Cp.
    exists (p :: P').
    split; [constructor; [|exact F']|].
    { split; [|split; [exact Fp|split; assumption]].
      intro Hp. rewrite Hp in Lp. simpl in Lp. destruct (eo_segments eo); [contradiction|discriminate]. }
    split.
    { rewrite E'. unfold r. simpl. rewrite L1, <- Lp, <- app_assoc. reflexivity. }
    split; [rewrite D'; exact D1|].
    split; [rewrite T', T1, <- app_assoc; reflexivity|].
    split; [rewrite L', L1; simpl; rewrite length_app, Lp; lia|].
    split; [rewrite C', C1; simpl; rewrite fold_left_app, Cp; reflexivity|].
    split; [exact N'|].
    split; [discriminate|].
    split; [|split].
    + intros _ Hl. destruct rest as [|eo2 rest].
      * rewrite (Nil' eq_refl). apply Cl1. rewrite Hende. simpl in Hl. lia.
      * apply Cl'; [discriminate|]. simpl in Hl |- *. lia.
    + intro He0. rewrite S'; [|lia]. rewrite S1. apply Nat.eqb_neq in He0. rewrite He0. reflexivity.
    + intros He0 _. rewrite S'; [|lia]. rewrite S1, He0. reflexivity.
Qed.

Lemma concat_fmap_fmap {A B} (f : A -> B) (P : list (list A)) :
  concat (fmap (M := list) f <$> P) = f <$> concat P.
Proof.
  induction P as [|x P IH]; [reflexivity|].
  rewrite fmap_cons. cbn [concat]. rewrite IH, fmap_app. reflexivity.
Qed.

Lemma chain_ranges_fmap (f : segment -> segment) (s : nat) (P : list (list segment)) :
  chain_ranges s (fmap (M := list) f <$> P) = chain_ranges s P.
Proof.
  revert s; induction P as [|x P IH]; intro s; [reflexivity|].
  rewrite fmap_cons. cbn [chain_ranges]. rewrite length_fmap, IH. reflexivity.
Qed.

Lemma length_chain_ranges s P : length (chain_ranges s P) = length P.
Proof. revert s; induction P as [|x P IH]; intro s; simpl; [reflexivity|]. rewrite IH. reflexivity. Qed.

Lemma ranges_zip_with (rs : list (range_type nat)) (ts : list edge_type_t) :
  length rs = length ts -> m_edge_range <$> zip_with mk_Edge rs ts = rs.
Proof.
  revert ts; induction rs as [|r rs IH]; intros [|t ts] H; simpl in *; try discriminate; [reflexivity|].
  rewrite IH by lia. reflexivity.
Qed.

Lemma edge_fields_ok_fmap (f : segment -> segment) (p : list segment) :
  (forall s, m_distance_from_edge_start (f s) = m_distance_from_edge_start s) ->
  (forall s, m_length (f s) = m_length s) ->
  (forall s, m_edge_length (f s) = m_edge_length s) ->
  edge_fields_ok p -> edge_fields_ok (f <$> p).
Proof.
  intros Hd Hl He (H0 & Hc & HL). split; [|split].
  - intros s Hs. rewrite list_lookup_fmap in Hs.
    destruct (p !! 0%nat) eqn:E; simpl in Hs; [|discriminate].
    injection Hs as <-. rewrite Hd. apply H0. reflexivity.
  - intros i s1 s2 H1 H2. rewrite list_lookup_fmap in H1, H2.
    destruct (p !! i) eqn:E1; simpl in H1; [|discriminate].
    destruct (p !! Datatypes.S i) eqn:E2; simpl in H2; [|discriminate].
    injection H1 as <-. injection H2 as <-. rewrite !Hd, Hl. eapply Hc; eassumption.
  - intros L HLs s Hs. rewrite last_lookup, length_fmap, list_lookup_fmap in HLs.
    destruct (p !! pred (length p)) eqn:E; simpl in HLs; [|discriminate].
    injection HLs as <-. apply list_elem_of_fmap in Hs as (x & -> & Hs0).
    rewrite He, Hd, Hl. apply HL; [rewrite last_lookup; exact E | exact Hs0].
Qed.

Lemma edge_rel_fmap (f : segment -> segment) p eo :
  (forall s, m_distance_from_edge_start (f s) = m_distance_from_edge_start s) ->
  (forall s, m_length (f s) = m_length s) ->
  (forall s, m_edge_length (f s) = m_edge_length s) ->
  (forall s, m_start_pt (f s) = m_start_pt s) ->
  (forall s, m_end_pt (f s) = m_end_pt s) ->
  edge_rel p eo -> edge_rel (f <$> p) eo.
Proof.
  intros Hd Hl He Hs Ht (Hne & Ok & Ps & Pe). split; [|split; [|split]].
  - intro H. apply Hne. destruct p; [reflexivity|discriminate].
  - apply edge_fields_ok_fmap; assumption.
  - rewrite <- Ps. rewrite <- list_fmap_compose. apply list_fmap_ext. intros; apply Hs.
  - rewrite <- Pe. rewrite <- list_fmap_compose. apply list_fmap_ext. intros; apply Ht.
Qed.

Lemma finalize_spec d b tp :
  finalize d b = Some tp ->
  m_edges tp = m_edges d /\ m_segment_data tp = m_segment_data d ++ concat (m_temp b).
Proof.
  unfold finalize. destruct (last (m_edges d)) as [es|]; simpl; [|discriminate].
  destruct (last es) as [ed|]; simpl; [|discriminate].
  destruct (Nat.eqb _ _); [|discriminate]. intro H. injection H as <-. split; reflexivity.
Qed.

Lemma add_contours_spec d b o cs d' b' Edone :
  add_contours t_cos t_sin magnitude d b o cs = Some (d', b') ->
  Forall (fun c => c <> []) cs ->
  m_edges d = Edone ++ replicate (length cs) [] -> length Edone = o ->
  exists G,
    Forall2 (Forall2 edge_rel) G cs
    /\ Forall closed_ok G
    /\ fmap (M := list) m_edge_range <$> m_edges d'
       = (fmap (M := list) m_edge_range <$> Edone) ++ contour_ranges (m_loc b) G
    /\ m_segment_data d' = m_segment_data d
    /\ m_temp b' = m_temp b ++ concat G
    /\ m_loc b' = (m_loc b + length (concat (concat G)))%nat.
Proof.
  revert d b o Edone; induction cs as [|c rest IH]; intros d b o Edone H Hne Hd Ho;
    cbn [add_contours] in H.
  - injection H as <- <-. exists []. simpl in Hd. rewrite app_nil_r in Hd. rewrite Hd.
    simpl. rewrite !app_nil_r, Nat.add_0_r.
    split; [constructor|]. split; [constructor|]. auto.
  - inversion Hne as [|? ? Hc Hne']; subst.
    destruct (start_contour d b (length Edone) (length c)) as [d1 b1] eqn:ES.
    destruct (add_edges t_cos t_sin magnitude d1 b1 (length Edone) 0 (length c) c)
      as [[d2 b2]|] eqn:EA; [|discriminate].
    simpl in H. unfold start_contour in ES. injection ES as <- <-.
    edestruct (add_edges_spec _ _ _ _ _ _ _ _ Edone [] (replicate (length c) default_edge)
                 (replicate (length rest) []) EA)
      as (P & F & E2 & D2 & T2 & L2 & C2 & N2 & _ & Cl2 & _ & S2).
    { simpl. rewrite Hd. simpl. rewrite alter_middle by reflexivity. rewrite resize_nil. reflexivity. }
    { reflexivity. } { reflexivity. } { apply length_replicate. } { reflexivity. }
    simpl in T2, L2, C2, S2.
    assert (HP : P <> []) by (intros ->; inversion F; subst; contradiction).
    unfold end_contour in H. rewrite (S2 eq_refl Hc), T2 in H.
    rewrite (proj2 (Nat.eqb_neq _ _)) in H
      by (rewrite length_app; destruct P; [contradiction|simpl; lia]).
    rewrite take_app_length, drop_app_length in H.
    set (g := fmap (M := list) (fun Sg => set_contour_lengths Sg (bs_open_contour_length b2)
                                  (bs_closed_contour_length b2)) <$> P) in H.
    edestruct (IH _ _ (Datatypes.S (length Edone))
                  (Edone ++ [zip_with mk_Edge (chain_ranges (m_loc b) P) (eo_edge_type <$> c)]) H)
      as (G' & FG' & CG' & RG' & DG' & TG' & LG').
    { exact Hne'. } { rewrite E2, <- app_assoc. reflexivity. } { rewrite length_app. simpl. lia. }
    assert (Hg : length (concat g) = length (concat P))
      by (unfold g; rewrite concat_fmap_fmap, length_fmap; reflexivity).
    exists (g :: G').
    split; [constructor; [|exact FG']|].
    { unfold g. apply Forall2_fmap_l. eapply Forall2_impl; [exact F|].
      intros p eo Hr. apply edge_rel_fmap; auto. }
    split; [constructor; [|exact CG']|].
    { intros x Hx. unfold g in Hx |- *. rewrite concat_fmap_fmap in Hx |- *.
      unfold sum_lengths. rewrite fold_addlen_fmap by reflexivity.
      apply list_elem_of_fmap in Hx as (y & -> & _). simpl.
      rewrite Cl2 by (simpl; auto). rewrite C2. reflexivity. }
    split.
    { rewrite RG'. simpl. rewrite fmap_app, <- app_assoc. f_equal. simpl.
      rewrite ranges_zip_with
        by (rewrite length_chain_ranges, length_fmap; exact (Forall2_length _ _ _ F)).
      unfold g. rewrite chain_ranges_fmap, L2. fold g. rewrite Hg. reflexivity. }
    split; [rewrite DG', D2; reflexivity|].
    split; [rewrite TG'; simpl; rewrite <- app_assoc; reflexivity|].
    rewrite LG'. cbn [concat m_loc]. rewrite L2, List.concat_app, length_app, Hg. simpl. lia.
Qed.

(** What a successful construction stores: for each contour the list of
    its edges' segments [G], the ranges of the edges laid out one after the
    other, and the segments in that order. *)
Lemma build_spec params outs tp :
  build_tessellated_path t_cos t_sin magnitude params outs = Some tp ->
  Forall (fun c => c <> []) outs ->
  exists G,
    Forall2 (Forall2 edge_rel) G outs
    /\ Forall closed_ok G
    /\ fmap (M := list) m_edge_range <$> m_edges tp = contour_ranges 0 G
    /\ m_segment_data tp = concat (concat G).
Proof.
  unfold build_tessellated_path. intros H Hne.
  destruct (Nat.eqb (length outs) 0) eqn:E0.
  - apply Nat.eqb_eq, nil_length_inv in E0. subst. injection H as <-.
    exists []. split; [constructor|]. split; [constructor|]. split; reflexivity.
  - destruct (add_contours t_cos t_sin magnitude
                (TessellatedPathPrivate_init (length outs) params) BuildingState_init 0 outs)
      as [[d' b']|] eqn:EA; [|discriminate].
    simpl in H. apply finalize_spec in H as [Ee Es].
    destruct (add_contours_spec _ _ _ _ _ _ [] EA Hne) as (G & F & C & R & D & T & _);
      [reflexivity|reflexivity|].
    exists G. split; [exact F|]. split; [exact C|].
    split; [rewrite Ee, R; reflexivity|].
    rewrite Es, D, T. reflexivity.
Qed.

End ConstructionProofs.

(** ** The query surface over the layout of [build_spec] *)

Lemma contour_ranges_lookup s G o :
  contour_ranges s G !! o
  = (fun g => chain_ranges (s + length (concat (concat (take o G))))%nat g) <$> G !! o.
Proof.
  revert s o; induction G as [|g G IH]; intros s [|o]; simpl; try reflexivity.
  - rewrite Nat.add_0_r. reflexivity.
  - rewrite IH. destruct (G !! o); simpl; [|reflexivity].
    rewrite List.concat_app, length_app. do 2 f_equal. lia.
Qed.

Lemma chain_ranges_lookup s g e :
  chain_ranges s g !! e
  = (fun x => mk_range (s + length (concat (take e g)))%nat
                       (s + length (concat (take e g)) + length x)%nat) <$> g !! e.
Proof.
  revert s e; induction g as [|x g IH]; intros s [|e]; simpl; try reflexivity.
  - rewrite Nat.add_0_r. reflexivity.
  - rewrite IH. destruct (g !! e); simpl; [|reflexivity].
    rewrite length_app. do 2 f_equal; lia.
Qed.

Lemma concat_take_S {A} (l : list (list A)) e x :
  l !! e = Some x -> length (concat (take (Datatypes.S e) l)) = (length (concat (take e l)) + length x)%nat.
Proof. intro H. rewrite (take_S_r _ _ _ H), List.concat_app, length_app. simpl. rewrite app_nil_r. reflexivity. Qed.

Lemma concat_middle {A} (l : list (list A)) e x :
  l !! e = Some x -> concat l = concat (take e l) ++ x ++ concat (drop (Datatypes.S e) l).
Proof.
  intro H. rewrite <- (take_drop_middle l e x H) at 1. rewrite List.concat_app. reflexivity.
Qed.

Lemma sub_array_middle {A} (pre x suf : list A) :
  sub_array (pre ++ x ++ suf) (mk_range (length pre) (length pre + length x)%nat) = x.
Proof.
  unfold sub_array. simpl. rewrite drop_app_length.
  replace (length pre + length x - length pre)%nat with (length x) by lia.
  apply take_app_length.
Qed.

Lemma chain_ranges_head s g r : head (chain_ranges s g) = Some r -> m_begin r = s.
Proof. destruct g; simpl; [discriminate|]. intro H; injection H as <-. reflexivity. Qed.

Lemma chain_ranges_last s g r :
  last (chain_ranges s g) = Some r -> m_end r = (s + length (concat g))%nat.
Proof.
  revert s; induction g as [|x g IH]; intro s; simpl; [discriminate|].
  rewrite last_cons. destruct (last (chain_ranges (s + length x) g)) as [r'|] eqn:E.
  - intro H; injection H as <-. rewrite (IH _ E), length_app. lia.
  - intro H; injection H as <-. simpl.
    destruct g; [simpl; rewrite app_nil_r; reflexivity|].
    simpl in E. rewrite last_cons in E. destruct (last _); discriminate.
Qed.

Lemma head_fmap' {A B} (f : A -> B) (l : list A) : head (f <$> l) = f <$> head l.
Proof. destruct l; reflexivity. Qed.

Lemma last_fmap' {A B} (f : A -> B) (l : list A) : last (f <$> l) = f <$> last l.
Proof. rewrite !last_lookup, length_fmap, list_lookup_fmap. reflexivity. Qed.

Lemma length_contour_ranges s G : length (contour_ranges s G) = length G.
Proof. revert s; induction G as [|g G IH]; intro s; simpl; [reflexivity|]. rewrite IH. reflexivity. Qed.

Lemma concat2_take_S {A} (G : list (list (list A))) o g :
  G !! o = Some g ->
  length (concat (concat (take (Datatypes.S o) G)))
  = (length (concat (concat (take o G))) + length (concat g))%nat.
Proof.
  intro H. rewrite (take_S_r _ _ _ H), !List.concat_app, length_app. simpl.
  rewrite !app_nil_r. reflexivity.
Qed.

Section Layout.

Variable tp : TessellatedPathPrivate.
Variable G : list (list (list segment)).
Hypothesis HR : fmap (M := list) m_edge_range <$> m_edges tp = contour_ranges 0 G.
Hypothesis HD : m_segment_data tp = concat (concat G).

Lemma contour_lookup o es :
  m_edges tp !! o = Some es ->
  exists g, G !! o = Some g
    /\ m_edge_range <$> es = chain_ranges (length (concat (concat (take o G)))) g.
Proof.
  intro He. pose proof (f_equal (fun l => l !! o) HR) as H. simpl in H.
  rewrite list_lookup_fmap, He, contour_ranges_lookup in H.
  destruct (G !! o) as [g|]; simpl in H; [|discriminate].
  exists g. split; [reflexivity|]. injection H as H. exact H.
Qed.

Lemma edge_range_lookup o e r :
  edge_range tp o e = Some r ->
  exists g x, G !! o = Some g /\ g !! e = Some x
    /\ m_begin r = (length (concat (concat (take o G))) + length (concat (take e g)))%nat
    /\ m_end r = (m_begin r + length x)%nat.
Proof.
  unfold edge_range. destruct (m_edges tp !! o) as [es|] eqn:Eo; simpl; [|discriminate].
  destruct (es !! e) as [ed|] eqn:Ee; simpl; [|discriminate]. intro H; injection H as <-.
  destruct (contour_lookup o es Eo) as (g & Hg & Hes).
  pose proof (f_equal (fun l => l !! e) Hes) as H. simpl in H.
  rewrite list_lookup_fmap, Ee, chain_ranges_lookup in H.
  destruct (g !! e) as [x|] eqn:Ex; simpl in H; [|discriminate]. injection H as ->.
  exists g, x. simpl. auto.
Qed.

Lemma number_edges_lookup o n :
  number_edges tp o = Some n -> exists g, G !! o = Some g /\ length g = n.
Proof.
  unfold number_edges. destruct (m_edges tp !! o) as [es|] eqn:Eo; simpl; [|discriminate].
  intro H; injection H as <-. destruct (contour_lookup o es Eo) as (g & Hg & Hes).
  exists g. split; [exact Hg|]. rewrite <- (length_chain_ranges (length (concat (concat (take o G))))), <- Hes.
  apply length_fmap.
Qed.

Lemma edge_segment_data_lookup o e segs :
  edge_segment_data tp o e = Some segs -> exists g, G !! o = Some g /\ g !! e = Some segs.
Proof.
  unfold edge_segment_data. destruct (edge_range tp o e) as [r|] eqn:Er; simpl; [|discriminate].
  intro H; injection H as <-. destruct (edge_range_lookup o e r Er) as (g & x & Hg & Hx & Hb & He).
  exists g. split; [exact Hg|]. rewrite Hx. f_equal.
  rewrite HD, (concat_middle G o g Hg), !List.concat_app, (concat_middle g e x Hx).
  rewrite <- !app_assoc.
  rewrite (app_assoc (concat (concat (take o G))) (concat (take e g))).
  replace r with (mk_range (length (concat (concat (take o G)) ++ concat (take e g)))
                           (length (concat (concat (take o G)) ++ concat (take e g)) + length x)%nat)
    by (destruct r; simpl in *; rewrite length_app; congruence).
  symmetry. apply sub_array_middle.
Qed.

Lemma contour_segment_data_lookup o cs :
  contour_segment_data tp o = Some cs -> exists g, G !! o = Some g /\ cs = concat g.
Proof.
  unfold contour_segment_data, contour_range.
  destruct (m_edges tp !! o) as [es|] eqn:Eo; simpl; [|discriminate].
  destruct (head es) as [f|] eqn:Ef; simpl; [|discriminate].
  destruct (last es) as [l|] eqn:El; simpl; [|discriminate].
  intro H; injection H as <-.
  destruct (contour_lookup o es Eo) as (g & Hg & Hes).
  pose proof (f_equal head Hes) as Hh. rewrite head_fmap', Ef in Hh. simpl in Hh.
  pose proof (f_equal last Hes) as Hl. rewrite last_fmap', El in Hl. simpl in Hl.
  apply eq_sym, chain_ranges_head in Hh. apply eq_sym, chain_ranges_last in Hl.
  exists g. split; [exact Hg|].
  rewrite HD, (concat_middle G o g Hg), !List.concat_app, Hh, Hl.
  apply (sub_array_middle (concat (concat (take o G))) (concat g)).
Qed.

Lemma number_contours_length : number_contours tp = length G.
Proof.
  unfold number_contours. rewrite <- (length_fmap (fmap (M := list) m_edge_range)), HR.
  apply length_contour_ranges.
Qed.

End Layout.

(** ** Claims about the layout of a TessellatedPath *)

(** C10: the edge ranges of a TessellatedPath partition its segment buffer:
    every contour has an edge and every edge a range; the first edge of the
    first contour begins at 0; within a contour edge [e+1] begins where edge
    [e] ends; the first edge of contour [o+1] begins where the last edge of
    contour [o] ends; and the last edge of the last contour ends at
    [segment_data().size()].  Stated for every path the constructors build
    from contours of at least one edge each (a PathContour has one edge per
    point, the closing edge included). *)
Theorem edge_ranges_partition (t_cos t_sin : Q -> Q) (magnitude : vec2 -> Q)
    (params : TessellationParams) (outs : list (list edge_output)) (tp : TessellatedPathPrivate)
    (Hb : build_tessellated_path t_cos t_sin magnitude params outs = Some tp)
    (Hne : Forall (fun c => c <> []) outs) :
  (forall o, (o < number_contours tp)%nat -> exists n, number_edges tp o = Some n /\ (1 <= n)%nat)
  /\ (forall o e n, number_edges tp o = Some n -> (e < n)%nat -> exists r, edge_range tp o e = Some r)
  /\ (forall r, edge_range tp 0 0 = Some r -> m_begin r = 0%nat)
  /\ (forall o e r1 r2, edge_range tp o e = Some r1 -> edge_range tp o (Datatypes.S e) = Some r2 ->
        m_begin r2 = m_end r1)
  /\ (forall o n r1 r2, number_edges tp o = Some n -> edge_range tp o (n - 1) = Some r1 ->
        edge_range tp (Datatypes.S o) 0 = Some r2 -> m_begin r2 = m_end r1)
  /\ (forall n r, number_edges tp (number_contours tp - 1) = Some n ->
        edge_range tp (number_contours tp - 1) (n - 1) = Some r ->
        m_end r = length (segment_data tp)).
Proof.
  destruct (build_spec t_cos t_sin magnitude params outs tp Hb Hne) as (G & F & _ & HR & HD).
  pose proof (number_contours_length tp G HR) as Hnc.
  split; [|split; [|split; [|split; [|split]]]].
  - intros o Ho. rewrite Hnc in Ho.
    destruct (lookup_lt_is_Some_2 G o Ho) as [g Hg].
    destruct (Forall2_lookup_l _ _ _ _ _ F Hg) as (c & Hc & Fg).
    pose proof (Forall_lookup_1 _ _ _ _ Hne Hc) as Hc0. simpl in Hc0.
    assert (Ho' : (o < length (m_edges tp))%nat) by (unfold number_contours in Hnc; lia).
    destruct (lookup_lt_is_Some_2 _ o Ho') as [es Hes].
    destruct (contour_lookup tp G HR o es Hes) as (g' & Hg' & Hr).
    rewrite Hg in Hg'. injection Hg' as <-.
    exists (length es). unfold number_edges. rewrite Hes. split; [reflexivity|].
    rewrite <- (length_fmap m_edge_range), Hr, length_chain_ranges, (Forall2_length _ _ _ Fg).
    destruct c; [contradiction|simpl; lia].
  - intros o e n Hn He. unfold number_edges in Hn.
    destruct (m_edges tp !! o) as [es|] eqn:Eo; simpl in Hn; [|discriminate].
    injection Hn as <-. destruct (lookup_lt_is_Some_2 _ _ He) as [ed Hed].
    exists (m_edge_range ed). unfold edge_range. rewrite Eo. simpl. rewrite Hed. reflexivity.
  - intros r Hr. destruct (edge_range_lookup tp G HR 0 0 r Hr) as (g & x & _ & _ & Hb0 & _).
    rewrite Hb0. reflexivity.
  - intros o e r1 r2 H1 H2.
    destruct (edge_range_lookup tp G HR o e r1 H1) as (g & x & Hg & Hx & B1 & E1).
    destruct (edge_range_lookup tp G HR o (Datatypes.S e) r2 H2) as (g' & x' & Hg' & _ & B2 & _).
    rewrite Hg in Hg'. injection Hg' as <-.
    rewrite B2, E1, B1, (concat_take_S g e x Hx). lia.
  - intros o n r1 r2 Hn H1 H2.
    destruct (number_edges_lookup tp G HR o n Hn) as (g & Hg & Hl).
    destruct (edge_range_lookup tp G HR o (n - 1) r1 H1) as (g' & x & Hg' & Hx & B1 & E1).
    rewrite Hg in Hg'. injection Hg' as <-.
    destruct (edge_range_lookup tp G HR (Datatypes.S o) 0 r2 H2) as (g2 & x2 & _ & _ & B2 & _).
    assert (Hn1 : (Datatypes.S (n - 1)) = n) by (apply lookup_lt_Some in Hx; lia).
    pose proof (concat_take_S g (n - 1) x Hx) as Hc. rewrite Hn1, take_ge in Hc by lia.
    rewrite B2, E1, B1, (concat2_take_S G o g Hg), take_0. simpl. lia.
  - intros n r Hn H1.
    destruct (number_edges_lookup tp G HR _ n Hn) as (g & Hg & Hl).
    destruct (edge_range_lookup tp G HR _ (n - 1) r H1) as (g' & x & Hg' & Hx & B1 & E1).
    rewrite Hg in Hg'. injection Hg' as <-.
    assert (Hn1 : (Datatypes.S (n - 1)) = n) by (apply lookup_lt_Some in Hx; lia).
    pose proof (concat_take_S g (n - 1) x Hx) as Hc. rewrite Hn1, take_ge in Hc by lia.
    assert (Ho1 : Datatypes.S (number_contours tp - 1) = length G)
      by (apply lookup_lt_Some in Hg; lia).
    pose proof (concat2_take_S G _ g Hg) as HG. rewrite Ho1, take_ge in HG by lia.
    unfold segment_data. rewrite HD, E1, B1, HG. lia.
Qed.

(** C3: in every TessellatedPath the constructors build (from contours of
    at least one edge each), the segments of every edge satisfy
    [edge_fields_ok]: the first one has [m_distance_from_edge_start = 0],
    segment [i+1] has the [m_distance_from_edge_start] of segment [i] plus
    its [m_length], and every segment has [m_edge_length] equal to the
    [m_distance_from_edge_start] plus the [m_length] of the last one; and
    every segment of a contour (every contour is closed by its closing edge)
    has [m_closed_contour_length] equal to the sum of the [m_length] of the
    segments of all the edges of the contour. *)
Theorem edge_and_contour_lengths (t_cos t_sin : Q -> Q) (magnitude : vec2 -> Q)
    (params : TessellationParams) (outs : list (list edge_output)) (tp : TessellatedPathPrivate)
    (Hb : build_tessellated_path t_cos t_sin magnitude params outs = Some tp)
    (Hne : Forall (fun c => c <> []) outs) :
  (forall o e segs, edge_segment_data tp o e = Some segs -> edge_fields_ok segs)
  /\ (forall o cs, contour_segment_data tp o = Some cs ->
        forall s, s ∈ cs -> m_closed_contour_length s = sum_lengths cs).
Proof.
  destruct (build_spec t_cos t_sin magnitude params outs tp Hb Hne) as (G & F & C & HR & HD).
  split.
  - intros o e segs H.
    destruct (edge_segment_data_lookup tp G HR HD o e segs H) as (g & Hg & Hs).
    destruct (Forall2_lookup_l _ _ _ _ _ F Hg) as (c & _ & Fg).
    destruct (Forall2_lookup_l _ _ _ _ _ Fg Hs) as (eo & _ & (_ & Ok & _)).
    exact Ok.
  - intros o cs H.
    destruct (contour_segment_data_lookup tp G HR HD o cs H) as (g & Hg & ->).
    exact (Forall_lookup_1 _ _ _ _ C Hg).
Qed.

(** C1 (as the code has it): in every TessellatedPath the constructors
    build, the segments of each edge have, in order, the start and end
    points of the segments its interpolator wrote to the SegmentStorage, so
    an edge is contiguous exactly when the interpolator wrote a contiguous
    chain; and SegmentStorage::add_arc_segment always writes a chain that
    leaves [start], ends at [end] and is contiguous. *)
Theorem edge_points_as_emitted (t_cos t_sin : Q -> Q) (magnitude : vec2 -> Q)
    (params : TessellationParams) (outs : list (list edge_output)) (tp : TessellatedPathPrivate)
    (Hb : build_tessellated_path t_cos t_sin magnitude params outs = Some tp)
    (Hne : Forall (fun c => c <> []) outs) :
  (forall o e c eo segs, outs !! o = Some c -> c !! e = Some eo ->
     edge_segment_data tp o e = Some segs ->
     List.map m_start_pt segs = List.map m_start_pt (eo_segments eo)
     /\ List.map m_end_pt segs = List.map m_end_pt (eo_segments eo)
     /\ (contiguous segs <-> contiguous (eo_segments eo)))
  /\ (forall (M_PI : Q) (st en center : vec2) (radius : Q) (arc_angle : range_type Q)
        (d : list segment),
      exists emitted,
        add_arc_segment M_PI t_cos t_sin st en center radius arc_angle d = d ++ emitted
        /\ joins st emitted en /\ contiguous emitted).
Proof.
  destruct (build_spec t_cos t_sin magnitude params outs tp Hb Hne) as (G & F & C & HR & HD).
  split.
  - intros o e c eo segs Hc He H.
    destruct (edge_segment_data_lookup tp G HR HD o e segs H) as (g & Hg & Hs).
    destruct (Forall2_lookup_l _ _ _ _ _ F Hg) as (c' & Hc' & Fg).
    rewrite Hc in Hc'. injection Hc' as <-.
    destruct (Forall2_lookup_l _ _ _ _ _ Fg Hs) as (eo' & He' & (_ & _ & Ps & Pe)).
    rewrite He in He'. injection He' as <-.
    split; [exact Ps|]. split; [exact Pe|].
    split; apply contiguous_maps; auto.
  - intros M_PI st en center radius arc_angle d.
    destruct (add_arc_segment_joins M_PI t_cos t_sin st en center radius arc_angle d)
      as (emitted & E & J).
    exists emitted. split; [exact E|]. split; [exact J|]. eapply joins_contiguous; exact J.
Qed.

Lemma edge_points_as_emitted_witness :
  exists tp,
    build_tessellated_path sample_cos sample_sin sample_magnitude sample_params sample_outs = Some tp
    /\ ((forall o e c eo segs, sample_outs !! o = Some c -> c !! e = Some eo ->
          edge_segment_data tp o e = Some segs ->
          List.map m_start_pt segs = List.map m_start_pt (eo_segments eo)
          /\ List.map m_end_pt segs = List.map m_end_pt (eo_segments eo)
          /\ (contiguous segs <-> contiguous (eo_segments eo)))
        /\ (forall (M_PI : Q) (st en center : vec2) (radius : Q) (arc_angle : range_type Q)
              (d : list segment),
            exists emitted,
              add_arc_segment M_PI sample_cos sample_sin st en center radius arc_angle d = d ++ emitted
              /\ joins st emitted en /\ contiguous emitted)).
Proof.
  eexists. split; [vm_compute; reflexivity|].
  apply (edge_points_as_emitted sample_cos sample_sin sample_magnitude sample_params sample_outs).
  - vm_compute. reflexivity.
  - repeat constructor; discriminate.
Defined.

(** C1 as stated fails: an interpolator may write segments that do not
    meet, and the constructor keeps them as they are. *)
Lemma gap_edge_not_contiguous :
  exists tp segs,
    build_tessellated_path sample_cos sample_sin sample_magnitude sample_params [[gap_edge]] = Some tp
    /\ Forall (fun c => c <> []) [[gap_edge]]
    /\ edge_segment_data tp 0 0 = Some segs
    /\ ~ contiguous segs.
Proof.
  eexists. eexists. split; [vm_compute; reflexivity|].
  split; [repeat constructor; discriminate|].
  split; [vm_compute; reflexivity|].
  intro H. specialize (H 0%nat _ _ eq_refl eq_refl). discriminate H.
Qed.

Lemma edge_and_contour_lengths_witness :
  exists tp,
    build_tessellated_path sample_cos sample_sin sample_magnitude sample_params sample_outs = Some tp
    /\ ((forall o e segs, edge_segment_data tp o e = Some segs -> edge_fields_ok segs)
        /\ (forall o cs, contour_segment_data tp o = Some cs ->
              forall s, s ∈ cs -> m_closed_contour_length s = sum_lengths cs)).
Proof.
  eexists. split; [vm_compute; reflexivity|].
  apply (edge_and_contour_lengths sample_cos sample_sin sample_magnitude sample_params sample_outs).
  - vm_compute. reflexivity.
  - repeat constructor; discriminate.
Defined.

Lemma edge_ranges_partition_witness :
  exists tp,
    build_tessellated_path sample_cos sample_sin sample_magnitude sample_params sample_outs = Some tp
    /\ ((forall o, (o < number_contours tp)%nat -> exists n, number_edges tp o = Some n /\ (1 <= n)%nat)
        /\ (forall o e n, number_edges tp o = Some n -> (e < n)%nat -> exists r, edge_range tp o e = Some r)
        /\ (forall r, edge_range tp 0 0 = Some r -> m_begin r = 0%nat)
        /\ (forall o e r1 r2, edge_range tp o e = Some r1 ->
              edge_range tp o (Datatypes.S e) = Some r2 -> m_begin r2 = m_end r1)
        /\ (forall o n r1 r2, number_edges tp o = Some n -> edge_range tp o (n - 1) = Some r1 ->
              edge_range tp (Datatypes.S o) 0 = Some r2 -> m_begin r2 = m_end r1)
        /\ (forall n r, number_edges tp (number_contours tp - 1) = Some n ->
              edge_range tp (number_contours tp - 1) (n - 1) = Some r ->
              m_end r = length (segment_data tp))).
Proof.
  eexists. split; [vm_compute; reflexivity|].
  apply (edge_ranges_partition sample_cos sample_sin sample_magnitude sample_params sample_outs).
  - vm_compute. reflexivity.
  - repeat constructor; discriminate.
Defined.

Lemma add_arc_segment_pieces_witness :
  0 < sample_pi
  /\ exists emitted,
    add_arc_segment sample_pi sample_cos sample_sin (1, 0) (-1, 0) (0, 0) 1 (mk_range 0 sample_pi) []
    = [] ++ emitted
    /\ Forall (fun Sg => m_type Sg = arc_segment /\ Qabs (arc_span Sg) <= sample_pi / 4) emitted
    /\ (sample_pi / 4 < Qabs (m_end (mk_range 0 sample_pi) - m_begin (mk_range 0 sample_pi)) ->
        (2 <= length emitted)%nat).
Proof.
  split; [vm_compute; reflexivity|].
  apply (add_arc_segment_pieces sample_pi). vm_compute. reflexivity.
Defined.

(** ** The Refiner *)

Lemma Forall2_lookup_length {A B} (R : list A -> list B -> Prop)
    (G : list (list A)) (L : list (list B)) (o : nat) :
  Forall2 R G L -> (forall x y, R x y -> length x = length y) ->
  length <$> G !! o = length <$> L !! o.
Proof.
  intros F HRl. pose proof (proj1 (Forall2_lookup R G L) F o) as H.
  destruct (G !! o), (L !! o); inversion H; subst; simpl; try reflexivity.
  f_equal. auto.
Qed.

Lemma fmap_fmap_lookup_length {A B} (f : A -> B) (L : list (list A)) (o : nat) :
  length <$> fmap (M := list) (fmap (M := list) f) L !! o = length <$> L !! o.
Proof. rewrite list_lookup_fmap. destruct (L !! o); simpl; [rewrite length_fmap|]; reflexivity. Qed.

Lemma Forall_nonempty_fmap {A B} (f : A -> B) (L : list (list A)) :
  Forall (fun c => c <> []) L -> Forall (fun c => c <> []) (fmap (M := list) (fmap (M := list) f) L).
Proof.
  intro H. apply (proj2 (Forall_fmap _ _ _)). eapply Forall_impl; [exact H|].
  intros c Hc. unfold compose. destruct c; [contradiction|discriminate].
Qed.

(** The contours and edges of a built path are those of its input. *)
Lemma build_shape (t_cos t_sin : Q -> Q) (magnitude : vec2 -> Q) (params : TessellationParams)
    (outs : list (list edge_output)) (tp : TessellatedPathPrivate) :
  build_tessellated_path t_cos t_sin magnitude params outs = Some tp ->
  Forall (fun c => c <> []) outs ->
  number_contours tp = length outs /\ (forall o, number_edges tp o = length <$> outs !! o).
Proof.
  intros Hb Hne.
  destruct (build_spec t_cos t_sin magnitude params outs tp Hb Hne) as (G & F & _ & HR & HD).
  split.
  - rewrite (number_contours_length tp G HR). apply (Forall2_length _ _ _ F).
  - intro o. transitivity (length <$> G !! o).
    + unfold number_edges. pose proof (f_equal (fun l => l !! o) HR) as H. simpl in H.
      rewrite list_lookup_fmap, contour_ranges_lookup in H.
      destruct (m_edges tp !! o) as [es|]; destruct (G !! o) as [g|]; simpl in *;
        try discriminate; [|reflexivity].
      injection H as H. f_equal. rewrite <- (length_fmap m_edge_range es), H.
      apply length_chain_ranges.
    + apply (Forall2_lookup_length _ _ _ o F). intros x y Fx. exact (Forall2_length _ _ _ Fx).
Qed.

(** Every edge of the input has its segments in the built path, with the
    points of the segments the interpolator wrote. *)
Lemma edge_segment_data_emitted (t_cos t_sin : Q -> Q) (magnitude : vec2 -> Q)
    (params : TessellationParams) (outs : list (list edge_output)) (tp : TessellatedPathPrivate)
    (o e : nat) (c : list edge_output) (eo : edge_output) :
  build_tessellated_path t_cos t_sin magnitude params outs = Some tp ->
  Forall (fun c => c <> []) outs ->
  outs !! o = Some c -> c !! e = Some eo ->
  exists segs, edge_segment_data tp o e = Some segs
    /\ List.map m_start_pt segs = List.map m_start_pt (eo_segments eo)
    /\ List.map m_end_pt segs = List.map m_end_pt (eo_segments eo).
Proof.
  intros Hb Hne Hc He.
  destruct (build_spec t_cos t_sin magnitude params outs tp Hb Hne) as (G & F & _ & HR & HD).
  destruct (build_shape t_cos t_sin magnitude params outs tp Hb Hne) as [_ Hn].
  specialize (Hn o). rewrite Hc in Hn. unfold number_edges in Hn.
  destruct (m_edges tp !! o) as [es|] eqn:Eo; simpl in Hn; [|discriminate].
  injection Hn as Hn.
  assert (Hlt : (e < length es)%nat) by (apply lookup_lt_Some in He; lia).
  destruct (lookup_lt_is_Some_2 _ _ Hlt) as [ed Hed].
  assert (E : edge_segment_data tp o e = Some (sub_array (m_segment_data tp) (m_edge_range ed)))
    by (unfold edge_segment_data, edge_range; rewrite Eo; simpl; rewrite Hed; reflexivity).
  eexists; split; [exact E|].
  destruct (edge_segment_data_lookup tp G HR HD o e _ E) as (g & Hg & Hs).
  destruct (Forall2_lookup_l _ _ _ _ _ F Hg) as (c' & Hc' & Fg).
  rewrite Hc in Hc'. injection Hc' as <-.
  destruct (Forall2_lookup_l _ _ _ _ _ Fg Hs) as (eo' & He' & (_ & _ & Ps & Pe)).
  rewrite He in He'. injection He' as <-. auto.
Qed.

(** A path built from the edges [f] makes of the entries of [L] has the
    contours and edges of [L], and so has the list of what [f] records. *)
Lemma build_fmap_shape {A B} (t_cos t_sin : Q -> Q) (magnitude : vec2 -> Q)
    (params : TessellationParams) (f : A -> edge_output * B) (L : list (list A))
    (d : TessellatedPathPrivate) :
  build_tessellated_path t_cos t_sin magnitude params
    (fmap (M := list) (fmap (M := list) fst) (fmap (M := list) (fmap (M := list) f) L)) = Some d ->
  Forall (fun c => c <> []) L ->
  let cs := fmap (M := list) (fmap (M := list) snd) (fmap (M := list) (fmap (M := list) f) L) in
  number_contours d = length cs /\ (forall o, number_edges d o = length <$> cs !! o)
  /\ Forall (fun c => c <> []) cs.
Proof.
  intros Hb Hne cs.
  assert (Hne' := Forall_nonempty_fmap fst _ (Forall_nonempty_fmap f _ Hne)).
  destruct (build_shape _ _ _ _ _ _ Hb Hne') as [H1 H2].
  split; [|split].
  - rewrite H1. unfold cs. rewrite !length_fmap. reflexivity.
  - intro o. rewrite H2. unfold cs. rewrite !fmap_fmap_lookup_length. reflexivity.
  - apply Forall_nonempty_fmap, Forall_nonempty_fmap, Hne.
Qed.

Section RefinerProofs.

Variables t_cos t_sin : Q -> Q.
Variable magnitude : vec2 -> Q.
Context {Interp TessState : Type}.
Variable produce_tessellation : Interp -> TessellationParams -> list segment * Q * option TessState.
Variable resume_tessellation : TessState -> TessellationParams -> list segment * Q * TessState.
Variable recursion_depth : TessState -> nat.
Variable edge_type : Interp -> edge_type_t.

(** A reachable refiner holds a path with one contour per entry of its
    [m_contours] and, in each, one edge per PerEdge; no contour is empty. *)
Lemma refiner_shape (r : RefinerPrivate) :
  refiner_reachable t_cos t_sin magnitude produce_tessellation resume_tessellation
    recursion_depth edge_type r ->
  number_contours (m_path r) = length (m_contours r)
  /\ (forall o, number_edges (m_path r) o = length <$> m_contours r !! o)
  /\ Forall (fun c => c <> []) (m_contours r).
Proof.
  induction 1 as [input TP tp r Hne H | r md k r' Hr IH H].
  - unfold TessellatedPath_from_path in H.
    destruct (Nat.eqb_spec (length input) 0) as [E|E]; [discriminate|].
    cbv zeta in H.
    destruct (build_tessellated_path _ _ _ _ _) as [d|] eqn:Eb; simpl in H; [|discriminate].
    injection H as <- <-. simpl. exact (build_fmap_shape _ _ _ _ _ _ _ Eb Hne).
  - unfold refine_tessellation in H.
    destruct (Qltb _ _); [|injection H as <-; exact IH].
    destruct (TessellatedPath_from_refiner _ _ _ _ _ _ _ r md k) as [[p cs]|] eqn:Ep;
      simpl in H; [|discriminate].
    injection H as <-. simpl. destruct IH as (IH1 & IH2 & IH3).
    unfold TessellatedPath_from_refiner in Ep.
    destruct (Nat.eqb_spec (length (m_contours r)) 0) as [E|E].
    + injection Ep as <- <-. apply length_zero_iff_nil in E. rewrite E.
      split; [reflexivity|]. split; [intro o; reflexivity|constructor].
    + cbv zeta in Ep.
      destruct (build_tessellated_path _ _ _ _ _) as [d|] eqn:Eb; simpl in Ep; [|discriminate].
      injection Ep as <- <-. exact (build_fmap_shape _ _ _ _ _ _ _ Eb IH3).
Qed.

(** C7: for every refiner a program can hold, [refine_tessellation]
    leaves it as it is when the requested [max_distance] is not below the
    [max_distance()] of the held path; when it is below, the new path has the
    contour count and the edge count of every contour of the held one, and
    each edge of it has the points of the segments that the saved
    tessellation state's [resume_tessellation] writes (or, for an edge
    without a state, its interpolator's [produce_tessellation]) with the new
    parameters, whose [m_max_recursion] is the [unsigned int] sum
    [max_recursion() + additional_recursion_count] (modulo 2^32). *)
Theorem refine_tessellation_spec (r : RefinerPrivate)
    (Hr : refiner_reachable t_cos t_sin magnitude produce_tessellation resume_tessellation
            recursion_depth edge_type r) :
  (forall (md : Q) (k : nat), ~ (md < max_distance (m_path r)) ->
     refine_tessellation t_cos t_sin magnitude produce_tessellation resume_tessellation
       recursion_depth edge_type r md k = Some r)
  /\ (forall (md : Q) (k : nat) (r' : RefinerPrivate), md < max_distance (m_path r) ->
     refine_tessellation t_cos t_sin magnitude produce_tessellation resume_tessellation
       recursion_depth edge_type r md k = Some r' ->
     number_contours (m_path r') = number_contours (m_path r)
     /\ (forall o, number_edges (m_path r') o = number_edges (m_path r) o)
     /\ (forall o e c pe, m_contours r !! o = Some c -> c !! e = Some pe ->
          exists segs, edge_segment_data (m_path r') o e = Some segs
            /\ List.map m_start_pt segs
               = List.map m_start_pt
                   (match m_tess_state pe with
                    | Some st => (resume_tessellation st
                                    (mk_params md (uint32_add (max_recursion (m_path r)) k)
                                       (m_allow_arcs (m_params (m_path r))))).1.1
                    | None => (produce_tessellation (m_interpolator pe)
                                 (mk_params md (uint32_add (max_recursion (m_path r)) k)
                                    (m_allow_arcs (m_params (m_path r))))).1.1
                    end)
            /\ List.map m_end_pt segs
               = List.map m_end_pt
                   (match m_tess_state pe with
                    | Some st => (resume_tessellation st
                                    (mk_params md (uint32_add (max_recursion (m_path r)) k)
                                       (m_allow_arcs (m_params (m_path r))))).1.1
                    | None => (produce_tessellation (m_interpolator pe)
                                 (mk_params md (uint32_add (max_recursion (m_path r)) k)
                                    (m_allow_arcs (m_params (m_path r))))).1.1
                    end))).
Proof.
  split.
  - intros md k Hlt. unfold refine_tessellation.
    destruct (Qltb md _) eqn:E; [apply Qltb_spec in E; contradiction|reflexivity].
  - intros md k r' Hlt H. destruct (refiner_shape r Hr) as (S1 & S2 & S3).
    unfold refine_tessellation in H. apply Qltb_spec in Hlt. rewrite Hlt in H.
    destruct (TessellatedPath_from_refiner _ _ _ _ _ _ _ r md k) as [[p cs]|] eqn:Ep;
      simpl in H; [|discriminate].
    injection H as <-. simpl. unfold TessellatedPath_from_refiner in Ep.
    destruct (Nat.eqb_spec (length (m_contours r)) 0) as [E|E].
    + injection Ep as <- <-. apply length_zero_iff_nil in E. rewrite E in S1, S2.
      rewrite E. split; [rewrite S1; reflexivity|]. split; [intro o; rewrite S2; reflexivity|].
      intros o e c pe Hc. rewrite lookup_nil in Hc. discriminate.
    + cbv zeta in Ep.
      set (params := mk_params md (uint32_add (max_recursion (m_path r)) k)
                               (m_allow_arcs (m_params (m_path r)))) in *.
      destruct (build_tessellated_path _ _ _ _ _) as [d|] eqn:Eb; simpl in Ep; [|discriminate].
      injection Ep as <- <-.
      destruct (build_fmap_shape _ _ _ _ _ _ _ Eb S3) as (B1 & B2 & _).
      split; [rewrite B1, S1, !length_fmap; reflexivity|].
      split; [intro o; rewrite B2, S2, !fmap_fmap_lookup_length; reflexivity|].
      intros o e c pe Hc Hpe.
      assert (Hne' := Forall_nonempty_fmap fst _ (Forall_nonempty_fmap (refine_edge produce_tessellation resume_tessellation recursion_depth edge_type params) _ S3)).
      set (f := refine_edge produce_tessellation resume_tessellation recursion_depth edge_type params) in *.
      assert (Hc' : fmap (M := list) (fmap (M := list) fst) (fmap (M := list) (fmap (M := list) f) (m_contours r)) !! o
                    = Some (fmap (M := list) fst (fmap (M := list) f c)))
        by (rewrite !list_lookup_fmap, Hc; reflexivity).
      assert (Hpe' : fmap (M := list) fst (fmap (M := list) f c) !! e = Some (fst (f pe)))
        by (rewrite !list_lookup_fmap, Hpe; reflexivity).
      destruct (edge_segment_data_emitted _ _ _ _ _ _ o e _ _ Eb Hne' Hc' Hpe') as (segs & Es & P1 & P2).
      * exists segs. split; [exact Es|]. rewrite P1, P2. unfold f, refine_edge.
        destruct (m_tess_state pe) as [st|].
        -- destruct (resume_tessellation st params) as [[segs' tmp] st']. split; reflexivity.
        -- destruct (produce_tessellation (m_interpolator pe) params) as [[segs' tmp] st'].
           split; reflexivity.
Qed.

(** C8: constructing a TessellatedPath from a Path with no contours
    succeeds, creates no refiner, and gives a path with no contours and an
    empty segment buffer. *)
Theorem empty_path_tessellation (TP : TessellationParams) (ref : bool) :
  exists tp,
    TessellatedPath_from_path t_cos t_sin magnitude produce_tessellation recursion_depth
      edge_type [] TP ref = Some (tp, None)
    /\ number_contours tp = 0%nat /\ segment_data tp = [].
Proof. eexists. split; [reflexivity|]. split; reflexivity. Qed.

End RefinerProofs.

(** ** stroked and filled *)

Lemma call_seq_S {R} (acc : TessellatedPathPrivate -> nat -> R * TessellatedPathPrivate * nat)
    (n : nat) (d : TessellatedPathPrivate) (next_object : nat) :
  call_seq acc (Datatypes.S n) d next_object
  = let '(x, d1, next1) := acc d next_object in
    let '(xs, d2, next2) := call_seq acc n d1 next1 in (x :: xs, d2, next2).
Proof. reflexivity. Qed.

Lemma call_seq_fixed {R} (acc : TessellatedPathPrivate -> nat -> R * TessellatedPathPrivate * nat)
    (n : nat) (d : TessellatedPathPrivate) (next_object : nat) (x : R) :
  acc d next_object = (x, d, next_object) ->
  call_seq acc n d next_object = (replicate n x, d, next_object).
Proof. intro H. induction n as [|n IH]; [reflexivity|]. rewrite call_seq_S, H, IH. reflexivity. Qed.

(** C9 as stated fails: the path built from [sample_outs] has an arc, and
    its first [filled()] creates no FilledPath and returns null. *)
Lemma sample_outs_filled_null :
  exists tp,
    build_tessellated_path sample_cos sample_sin sample_magnitude sample_params sample_outs = Some tp
    /\ m_filled tp = None /\ m_has_arcs tp = true /\ filled tp 0 = (None, tp, 0%nat).
Proof.
  eexists. split; [vm_compute; reflexivity|].
  split; [reflexivity|]. split; [reflexivity|]. reflexivity.
Qed.

(** ** The sweep's order on vertices and its event queue *)

Lemma VertLeq_spec (u v : GLUvertex) :
  VertLeq u v = true <-> s u < s v \/ (s u == s v /\ t u <= t v).
Proof.
  unfold VertLeq. rewrite orb_true_iff, andb_true_iff, Qltb_spec, Qeq_bool_iff, Qle_bool_iff.
  reflexivity.
Qed.

Lemma VertEq_spec (u v : GLUvertex) : VertEq u v = true <-> s u == s v /\ t u == t v.
Proof. unfold VertEq. rewrite andb_true_iff, !Qeq_bool_iff. reflexivity. Qed.

Lemma VertEq_false (u v : GLUvertex) : VertEq u v = false -> ~ (s u == s v /\ t u == t v).
Proof. intros H C. apply VertEq_spec in C. congruence. Qed.

Lemma VertLeq_total (u v : GLUvertex) : VertLeq u v = false -> VertLeq v u = true.
Proof.
  intro H. assert (C : ~ (s u < s v \/ (s u == s v /\ t u <= t v)))
    by (rewrite <- VertLeq_spec; congruence).
  apply VertLeq_spec. lra.
Qed.

Lemma VertLeq_trans (u v w : GLUvertex) :
  VertLeq u v = true -> VertLeq v w = true -> VertLeq u w = true.
Proof. rewrite !VertLeq_spec. lra. Qed.

Lemma VertLeq_squeeze (v m w : GLUvertex) :
  VertLeq v m = true -> VertLeq m w = true -> VertEq w v = true -> VertEq m v = true.
Proof. rewrite !VertLeq_spec, !VertEq_spec. lra. Qed.

Lemma pqExtractMin_None (pq : list GLUvertex) : pqExtractMin pq = None -> pq = [].
Proof.
  destruct pq as [|v pq]; simpl; [reflexivity|].
  destruct (pqExtractMin pq) as [[m rest]|]; [destruct (VertLeq v m)|]; discriminate.
Qed.

Lemma pqExtractMin_spec (pq : list GLUvertex) (m : GLUvertex) (rest : list GLUvertex) :
  pqExtractMin pq = Some (m, rest) ->
  pq ≡ₚ m :: rest /\ (forall w, w ∈ rest -> VertLeq m w = true).
Proof.
  revert m rest; induction pq as [|v pq IH]; intros m rest; simpl; [discriminate|].
  destruct (pqExtractMin pq) as [[m' rest']|] eqn:E.
  - destruct (IH m' rest' eq_refl) as [P M].
    destruct (VertLeq v m') eqn:Hv; intro H; injection H as <- <-.
    + split; [reflexivity|]. intros w Hw. rewrite P, elem_of_cons in Hw.
      destruct Hw as [->|Hw]; [exact Hv|]. exact (VertLeq_trans _ _ _ Hv (M w Hw)).
    + split; [rewrite P; apply Permutation_swap|].
      intros w Hw. rewrite elem_of_cons in Hw.
      destruct Hw as [->|Hw]; [exact (VertLeq_total _ _ Hv)|exact (M w Hw)].
  - intro H; injection H as <- <-. rewrite (pqExtractMin_None pq E).
    split; [reflexivity|]. intros w Hw. apply elem_of_nil in Hw. contradiction.
Qed.

Lemma merge_loop_spec {Mesh : Type} (SpliceMergeVertices : GLUvertex -> GLUvertex -> Mesh -> Mesh)
    (n : nat) (v : GLUvertex) (pq : list GLUvertex) (mesh : Mesh) :
  length pq = n -> (forall w, w ∈ pq -> VertLeq v w = true) ->
  match merge_loop SpliceMergeVertices n v pq mesh with
  | (merged, pq', mesh') =>
      pq ≡ₚ merged ++ pq'
      /\ (forall w, w ∈ merged -> VertEq w v = true)
      /\ (forall w, w ∈ pq' -> VertEq w v = false)
      /\ mesh' = fold_left (fun m w => SpliceMergeVertices v w m) merged mesh
  end.
Proof.
  revert pq mesh; induction n as [|n IH]; intros pq mesh Hl Hv.
  - destruct pq; [|discriminate]. simpl.
    split; [reflexivity|]. split; [|split]; try (intros w Hw; apply elem_of_nil in Hw; contradiction).
    reflexivity.
  - simpl. unfold pqMinimum. destruct (pqExtractMin pq) as [[m rest]|] eqn:E; simpl.
    + destruct (pqExtractMin_spec _ _ _ E) as [P M].
      assert (Hm : VertLeq v m = true) by (apply Hv; rewrite P; left).
      destruct (VertEq m v) eqn:Em; simpl.
      * assert (Hl' : length rest = n) by (apply Permutation_length in P; simpl in P; lia).
        assert (Hv' : forall w, w ∈ rest -> VertLeq v w = true)
          by (intros w Hw; apply Hv; rewrite P; right; exact Hw).
        specialize (IH rest (SpliceMergeVertices v m mesh) Hl' Hv').
        destruct (merge_loop SpliceMergeVertices n v rest (SpliceMergeVertices v m mesh))
          as [[merged pq'] mesh'].
        destruct IH as (P' & M' & N' & F').
        split; [rewrite P, P'; reflexivity|]. split; [|split; [exact N'|exact F']].
        intros w Hw. rewrite elem_of_cons in Hw. destruct Hw as [->|Hw]; [exact Em|exact (M' w Hw)].
      * split; [reflexivity|]. split; [intros w Hw; apply elem_of_nil in Hw; contradiction|].
        split; [|reflexivity].
        intros w Hw. destruct (VertEq w v) eqn:Ew; [exfalso|reflexivity].
        rewrite P, elem_of_cons in Hw. destruct Hw as [->|Hw]; [congruence|].
        rewrite (VertLeq_squeeze v m w Hm (M w Hw) Ew) in Em. discriminate.
    + rewrite (pqExtractMin_None pq E). simpl.
      split; [reflexivity|]. split; [|split]; try (intros w Hw; apply elem_of_nil in Hw; contradiction).
      reflexivity.
Qed.

(** C4 (modelled from the spec: the event queue and the order on vertices
    are those of the spec): at every call of [SweepEvent] in the loop of
    [glu_fastuidraw_gl_computeInterior], the event [v] is a least vertex of
    the queue it was extracted from; every vertex that was pending with the
    coordinates of [v] has been extracted and merged into it, the mesh having
    gone through [SpliceMergeVertices] once for each of them, in order; and
    no vertex left in the queue has the coordinates of [v]. *)
Theorem computeInterior_merges_coincident {Mesh : Type}
    (SpliceMergeVertices : GLUvertex -> GLUvertex -> Mesh -> Mesh)
    (SweepEvent : GLUvertex -> list GLUvertex -> Mesh -> list GLUvertex * Mesh)
    (fuel : nat) (pq : list GLUvertex) (mesh : Mesh) :
  Forall (fun c : sweep_call Mesh =>
            (forall w, w ∈ sc_queue_after_extract c -> VertLeq (sc_event c) w = true)
            /\ sc_queue_after_extract c ≡ₚ sc_merged c ++ sc_queue c
            /\ (forall w, w ∈ sc_merged c -> VertEq w (sc_event c) = true)
            /\ sc_mesh c = fold_left (fun m w => SpliceMergeVertices (sc_event c) w m)
                             (sc_merged c) (sc_mesh_before c)
            /\ (forall w, w ∈ sc_queue c -> VertEq w (sc_event c) = false))
         (computeInterior_loop SpliceMergeVertices SweepEvent fuel pq mesh).1.1.
Proof.
  revert pq mesh; induction fuel as [|fuel IH]; intros pq mesh; simpl; [constructor|].
  destruct (pqExtractMin pq) as [[v pq1]|] eqn:E; [|constructor].
  destruct (pqExtractMin_spec _ _ _ E) as [_ M].
  pose proof (merge_loop_spec SpliceMergeVertices (length pq1) v pq1 mesh eq_refl M) as ML.
  destruct (merge_loop SpliceMergeVertices (length pq1) v pq1 mesh) as [[merged pq2] mesh2].
  destruct (SweepEvent v pq2 mesh2) as [pq3 mesh3].
  specialize (IH pq3 mesh3).
  destruct (computeInterior_loop SpliceMergeVertices SweepEvent fuel pq3 mesh3) as [[calls pq4] mesh4].
  simpl in *. destruct ML as (P & Mg & N & F).
  constructor; [simpl; auto|exact IH].
Qed.

(** ** CheckForIntersect *)

Ltac vert_facts :=
  repeat match goal with
  | H : VertLeq _ _ = true |- _ => apply VertLeq_spec in H
  | H : VertLeq _ _ = false |- _ => apply VertLeq_total in H
  | H : VertEq _ _ = true |- _ => apply VertEq_spec in H
  | H : VertEq _ _ = false |- _ => apply VertEq_false in H
  end; simpl in *.

Lemma clamp_bounds (event orgUp orgLo isect0 : GLUvertex) :
  VertLeq event orgUp = true -> VertLeq event orgLo = true ->
  let isect1 := if VertLeq isect0 event then mk_GLUvertex (s event) (t event) else isect0 in
  let orgMin := if VertLeq orgUp orgLo then orgUp else orgLo in
  let isect := if VertLeq orgMin isect1 then mk_GLUvertex (s orgMin) (t orgMin) else isect1 in
  VertLeq event isect = true /\ VertLeq isect orgUp = true /\ VertLeq isect orgLo = true.
Proof.
  intros HUp HLo isect1 orgMin isect.
  assert (H1 : VertLeq event isect1 = true).
  { unfold isect1. destruct (VertLeq isect0 event) eqn:E.
    - apply VertLeq_spec. simpl. right. split; [apply Qeq_refl|apply Qle_refl].
    - exact (VertLeq_total _ _ E). }
  unfold isect, orgMin.
  destruct (VertLeq orgUp orgLo) eqn:E1;
    [destruct (VertLeq orgUp isect1) eqn:E2|destruct (VertLeq orgLo isect1) eqn:E2];
    vert_facts; rewrite !VertLeq_spec; simpl; lra.
Qed.

Lemma L1_pos (u v : GLUvertex) : VertEq v u = false -> 0 < VertL1dist u v.
Proof.
  intro H. apply VertEq_false in H. unfold VertL1dist.
  pose proof (Qle_Qabs (s u - s v)). pose proof (Qle_Qabs (- (s u - s v))).
  pose proof (Qle_Qabs (t u - t v)). pose proof (Qle_Qabs (- (t u - t v))).
  rewrite Qabs_opp in *. lra.
Qed.

Lemma L1_nonneg (u v : GLUvertex) : 0 <= VertL1dist u v.
Proof.
  unfold VertL1dist. pose proof (Qabs_nonneg (s u - s v)). pose proof (Qabs_nonneg (t u - t v)).
  lra.
Qed.

Lemma Qabs_scale (lam x : Q) : 0 <= lam -> Qabs (lam * x) == lam * Qabs x.
Proof. intro H. rewrite Qabs_Qmult, (Qabs_pos lam H). reflexivity. Qed.

Lemma VertexWeights_spec (isect org dst : GLUvertex) :
  VertEq isect org = false ->
  let w0 := (VertexWeights isect org dst).1 in
  let w1 := (VertexWeights isect org dst).2 in
  w0 + w1 == 1 # 2 /\ 0 <= w0 /\ 0 <= w1
  /\ w0 * VertL1dist org isect == w1 * VertL1dist dst isect
  /\ (on_segment isect org dst ->
      2 * (w0 * s org + w1 * s dst) == s isect /\ 2 * (w0 * t org + w1 * t dst) == t isect).
Proof.
  intros Hne w0 w1. unfold w0, w1, VertexWeights. simpl.
  pose proof (L1_pos org isect Hne) as P1. pose proof (L1_nonneg dst isect) as P2.
  set (t1 := VertL1dist org isect) in *. set (t2 := VertL1dist dst isect) in *.
  assert (Hs : ~ t1 + t2 == 0) by lra.
  assert (Hi : 0 <= / (t1 + t2)) by (apply Qinv_le_0_compat; lra).
  split; [field; exact Hs|].
  split; [unfold Qdiv; apply Qmult_le_0_compat; [lra|exact Hi]|].
  split; [unfold Qdiv; apply Qmult_le_0_compat; [lra|exact Hi]|].
  split; [field; exact Hs|].
  intros (lam & Hlam & Hs' & Ht').
  assert (E1 : t1 == lam * (Qabs (s dst - s org) + Qabs (t dst - t org))).
  { unfold t1, VertL1dist.
    assert (A : s org - s isect == lam * (s org - s dst)) by (rewrite Hs'; ring).
    assert (B : t org - t isect == lam * (t org - t dst)) by (rewrite Ht'; ring).
    rewrite A, B, !Qabs_scale by lra. rewrite (Qabs_Qminus (s org)), (Qabs_Qminus (t org)). ring. }
  assert (E2 : t2 == (1 - lam) * (Qabs (s dst - s org) + Qabs (t dst - t org))).
  { unfold t2, VertL1dist.
    assert (A : s dst - s isect == (1 - lam) * (s dst - s org)) by (rewrite Hs'; ring).
    assert (B : t dst - t isect == (1 - lam) * (t dst - t org)) by (rewrite Ht'; ring).
    rewrite A, B, !Qabs_scale by lra. ring. }
  set (L := Qabs (s dst - s org) + Qabs (t dst - t org)) in *.
  assert (HL : ~ L == 0) by (intro HL; rewrite HL in E1; lra).
  rewrite E1, E2, Hs', Ht'. split; field; intro C; apply HL; ring_simplify in C; exact C.
Qed.

Lemma CheckForIntersect_general (EdgeSign : GLUvertex -> GLUvertex -> GLUvertex -> Q)
    (edgeIntersect : GLUvertex -> GLUvertex -> GLUvertex -> GLUvertex -> GLUvertex)
    (event orgUp dstUp orgLo dstLo : GLUvertex) (same_org : bool)
    (isect : GLUvertex) (weights : list Q) :
  CheckForIntersect EdgeSign edgeIntersect event orgUp dstUp orgLo dstLo same_org
    = new_vertex isect weights ->
  let isect0 := edgeIntersect dstUp orgUp dstLo orgLo in
  let isect1 := if VertLeq isect0 event then mk_GLUvertex (s event) (t event) else isect0 in
  let orgMin := if VertLeq orgUp orgLo then orgUp else orgLo in
  isect = (if VertLeq orgMin isect1 then mk_GLUvertex (s orgMin) (t orgMin) else isect1)
  /\ weights = GetIntersectData isect orgUp dstUp orgLo dstLo
  /\ VertEq isect orgUp = false /\ VertEq isect orgLo = false.
Proof.
  intro H. unfold CheckForIntersect in H. cbv zeta in H. cbv zeta.
  repeat match type of H with
  | context [if ?c then no_intersection else _] => destruct c; [discriminate H|]
  | context [if ?c then right_splice else _] =>
      let E := fresh "E" in destruct c eqn:E; [discriminate H|]
  | context [if ?c then wrong_side else _] => destruct c; [discriminate H|]
  end.
  injection H as <- <-. apply orb_false_iff in E. destruct E as [E1 E2].
  split; [reflexivity|]. split; [reflexivity|]. split; assumption.
Qed.

(** C6 (modelled from the spec: [VertLeq], [VertEq] and [VertL1dist] of
    geom.h): when CheckForIntersect creates the intersection vertex of the
    upper and lower edges of a region (the general case), its position lies
    neither left of the sweep event nor right of either edge's origin (the
    right end of an edge in the sweep; so not right of the rightmost of the
    four endpoints), given the dictionary invariant that both origins are
    not left of the event; and the four weights that describe it as a blend
    of [orgUp], [dstUp], [orgLo], [dstLo] give each edge one half, split
    between origin and destination in inverse proportion to their L1
    distances to the vertex, so that they reproduce the vertex when it lies
    on the edge.  The weights are computed from the clamped position. *)
Theorem CheckForIntersect_new_vertex (EdgeSign : GLUvertex -> GLUvertex -> GLUvertex -> Q)
    (edgeIntersect : GLUvertex -> GLUvertex -> GLUvertex -> GLUvertex -> GLUvertex)
    (event orgUp dstUp orgLo dstLo : GLUvertex) (same_org : bool)
    (isect : GLUvertex) (weights : list Q)
    (H : CheckForIntersect EdgeSign edgeIntersect event orgUp dstUp orgLo dstLo same_org
           = new_vertex isect weights)
    (HUp : VertLeq event orgUp = true) (HLo : VertLeq event orgLo = true) :
  VertLeq event isect = true /\ VertLeq isect orgUp = true /\ VertLeq isect orgLo = true
  /\ exists w0 w1 w2 w3, weights = [w0; w1; w2; w3]
     /\ w0 + w1 == 1 # 2 /\ w2 + w3 == 1 # 2
     /\ 0 <= w0 /\ 0 <= w1 /\ 0 <= w2 /\ 0 <= w3
     /\ w0 * VertL1dist orgUp isect == w1 * VertL1dist dstUp isect
     /\ w2 * VertL1dist orgLo isect == w3 * VertL1dist dstLo isect
     /\ (on_segment isect orgUp dstUp ->
         2 * (w0 * s orgUp + w1 * s dstUp) == s isect /\ 2 * (w0 * t orgUp + w1 * t dstUp) == t isect)
     /\ (on_segment isect orgLo dstLo ->
         2 * (w2 * s orgLo + w3 * s dstLo) == s isect /\ 2 * (w2 * t orgLo + w3 * t dstLo) == t isect).
Proof.
  destruct (CheckForIntersect_general _ _ _ _ _ _ _ _ _ _ H) as (Ei & Ew & N1 & N2).
  pose proof (clamp_bounds event orgUp orgLo (edgeIntersect dstUp orgUp dstLo orgLo) HUp HLo)
    as (B1 & B2 & B3).
  cbv zeta in Ei. rewrite <- Ei in B1, B2, B3.
  split; [exact B1|]. split; [exact B2|]. split; [exact B3|].
  pose proof (VertexWeights_spec isect orgUp dstUp N1) as (U1 & U2 & U3 & U4 & U5).
  pose proof (VertexWeights_spec isect orgLo dstLo N2) as (L1 & L2 & L3 & L4 & L5).
  exists (VertexWeights isect orgUp dstUp).1, (VertexWeights isect orgUp dstUp).2,
         (VertexWeights isect orgLo dstLo).1, (VertexWeights isect orgLo dstLo).2.
  split; [rewrite Ew; unfold GetIntersectData;
          destruct (VertexWeights isect orgUp dstUp), (VertexWeights isect orgLo dstLo);
          reflexivity|].
  repeat split; auto; try apply U5; try apply L5; auto.
Qed.

Lemma CheckForIntersect_new_vertex_witness :
  exists isect weights,
    CheckForIntersect sample_EdgeSign sample_edgeIntersect sample_event sample_orgUp sample_dstUp
      sample_orgLo sample_dstLo false = new_vertex isect weights
    /\ (VertLeq sample_event isect = true /\ VertLeq isect sample_orgUp = true
        /\ VertLeq isect sample_orgLo = true
        /\ exists w0 w1 w2 w3, weights = [w0; w1; w2; w3]
           /\ w0 + w1 == 1 # 2 /\ w2 + w3 == 1 # 2
           /\ 0 <= w0 /\ 0 <= w1 /\ 0 <= w2 /\ 0 <= w3
           /\ w0 * VertL1dist sample_orgUp isect == w1 * VertL1dist sample_dstUp isect
           /\ w2 * VertL1dist sample_orgLo isect == w3 * VertL1dist sample_dstLo isect
           /\ (on_segment isect sample_orgUp sample_dstUp ->
               2 * (w0 * s sample_orgUp + w1 * s sample_dstUp) == s isect
               /\ 2 * (w0 * t sample_orgUp + w1 * t sample_dstUp) == t isect)
           /\ (on_segment isect sample_orgLo sample_dstLo ->
               2 * (w2 * s sample_orgLo + w3 * s sample_dstLo) == s isect
               /\ 2 * (w2 * t sample_orgLo + w3 * t sample_dstLo) == t isect)).
Proof.
  eexists. eexists. split; [vm_compute; reflexivity|].
  apply (CheckForIntersect_new_vertex sample_EdgeSign sample_edgeIntersect sample_event
           sample_orgUp sample_dstUp sample_orgLo sample_dstLo false).
  - vm_compute. reflexivity.
  - vm_compute. reflexivity.
  - vm_compute. reflexivity.
Defined.

Lemma refine_tessellation_spec_witness :
  exists tp r,
    TessellatedPath_from_path sample_cos sample_sin sample_magnitude sample_produce sample_depth
      sample_edge_type sample_input sample_params true = Some (tp, Some r)
    /\ ((forall (md : Q) (k : nat), ~ (md < max_distance (m_path r)) ->
           refine_tessellation sample_cos sample_sin sample_magnitude sample_produce sample_resume
             sample_depth sample_edge_type r md k = Some r)
        /\ (forall (md : Q) (k : nat) (r' : RefinerPrivate), md < max_distance (m_path r) ->
           refine_tessellation sample_cos sample_sin sample_magnitude sample_produce sample_resume
             sample_depth sample_edge_type r md k = Some r' ->
           number_contours (m_path r') = number_contours (m_path r)
           /\ (forall o, number_edges (m_path r') o = number_edges (m_path r) o)
           /\ (forall o e c pe, m_contours r !! o = Some c -> c !! e = Some pe ->
                exists segs, edge_segment_data (m_path r') o e = Some segs
                  /\ List.map m_start_pt segs
                     = List.map m_start_pt
                         (match m_tess_state pe with
                          | Some st => (sample_resume st
                                          (mk_params md (uint32_add (max_recursion (m_path r)) k)
                                             (m_allow_arcs (m_params (m_path r))))).1.1
                          | None => (sample_produce (m_interpolator pe)
                                       (mk_params md (uint32_add (max_recursion (m_path r)) k)
                                          (m_allow_arcs (m_params (m_path r))))).1.1
                          end)
                  /\ List.map m_end_pt segs
                     = List.map m_end_pt
                         (match m_tess_state pe with
                          | Some st => (sample_resume st
                                          (mk_params md (uint32_add (max_recursion (m_path r)) k)
                                             (m_allow_arcs (m_params (m_path r))))).1.1
                          | None => (sample_produce (m_interpolator pe)
                                       (mk_params md (uint32_add (max_recursion (m_path r)) k)
                                          (m_allow_arcs (m_params (m_path r))))).1.1
                          end)))).
Proof.
  eexists. eexists. split; [vm_compute; reflexivity|].
  apply (refine_tessellation_spec sample_cos sample_sin sample_magnitude sample_produce
           sample_resume sample_depth sample_edge_type).
  eapply reachable_from_path with (input := sample_input) (TP := sample_params).
  - repeat constructor; discriminate.
  - vm_compute. reflexivity.
Defined.

(** ** What the construction accumulates besides the layout *)

Lemma fmap_alter_same {A B} (g : A -> B) (f : A -> A) (i : nat) (l : list A) :
  (forall x, g (f x) = g x) -> g <$> alter f i l = g <$> l.
Proof.
  intro H. apply list_eq. intro j. rewrite !list_lookup_fmap.
  destruct (decide (i = j)) as [->|Hne].
  - rewrite list_lookup_alter. destruct (l !! j); simpl; rewrite decide_True by reflexivity;
      simpl; [f_equal; apply H|reflexivity].
  - rewrite list_lookup_alter_ne by exact Hne. reflexivity.
Qed.

Lemma set_edge_lengths_geometry (l : list segment) :
  seg_geometry <$> set_edge_lengths l = seg_geometry <$> l.
Proof. unfold set_edge_lengths. rewrite <- list_fmap_compose. apply list_fmap_ext. intros; reflexivity. Qed.

Lemma end_contour_geometry (b : BuildingState) :
  fmap (M := list) seg_geometry <$> m_temp (end_contour b) = fmap (M := list) seg_geometry <$> m_temp b.
Proof.
  unfold end_contour. destruct (m_start_contour b) as [i|]; [|reflexivity].
  destruct (Nat.eqb i (length (m_temp b))); [reflexivity|]. simpl.
  rewrite fmap_app, <- list_fmap_compose.
  rewrite (list_fmap_ext _ (fmap (M := list) seg_geometry) (drop i (m_temp b)))
    by (intros ? x _; simpl; rewrite <- list_fmap_compose; apply list_fmap_ext; intros; reflexivity).
  rewrite <- fmap_app, take_drop. reflexivity.
Qed.

Lemma types_zip_with (rs : list (range_type nat)) (ts : list edge_type_t) :
  length rs = length ts -> m_edge_type <$> zip_with mk_Edge rs ts = ts.
Proof.
  revert ts; induction rs as [|r rs IH]; intros [|t ts] H; simpl in *; try discriminate; [reflexivity|].
  rewrite IH by lia. reflexivity.
Qed.

Lemma existsb_is_arc_elem (l : list segment) :
  existsb is_arc l = true <-> exists Sg, Sg ∈ l /\ m_type Sg = arc_segment.
Proof.
  rewrite existsb_exists. split.
  - intros (x & Hx & Ha). exists x. split; [apply list_elem_of_In; exact Hx|].
    unfold is_arc in Ha. destruct (m_type x); [discriminate|reflexivity].
  - intros (x & Hx & Ha). exists x. split; [apply list_elem_of_In; exact Hx|].
    unfold is_arc. rewrite Ha. reflexivity.
Qed.

Section Accumulation.

Variables t_cos t_sin : Q -> Q.
Variable magnitude : vec2 -> Q.

Lemma add_edge_loop_geometry prev clen ha wr :
  let r := add_edge_loop t_cos t_sin magnitude prev clen ha wr in
  seg_geometry <$> r.1.1 = seg_geometry <$> wr /\ r.2 = ha || existsb is_arc wr.
Proof.
  revert prev clen ha; induction wr as [|Sg wr IH]; intros prev clen ha; simpl.
  - rewrite orb_false_r. split; reflexivity.
  - set (S2 := set_distances _ _ _).
    set (cl := clen + m_length (compute_local_segment_values t_cos t_sin magnitude Sg)).
    specialize (IH (Some S2) cl (ha || is_arc Sg)).
    destruct (add_edge_loop t_cos t_sin magnitude (Some S2) cl (ha || is_arc Sg) wr)
      as [[rest clen'] ha'] eqn:E.
    simpl in IH |- *. destruct IH as [G H]. split.
    + f_equal; [|exact G]. unfold S2, compute_local_segment_values.
      destruct (m_type Sg); reflexivity.
    + rewrite H, orb_assoc. reflexivity.
Qed.

Lemma add_edge_fields d b o e wr md cl d1 b1 :
  add_edge t_cos t_sin magnitude d b o e wr md cl = Some (d1, b1) ->
  m_params d1 = m_params d /\ m_segment_data d1 = m_segment_data d
  /\ tpp_max_distance d1 = t_max_Q (tpp_max_distance d) md
  /\ m_has_arcs d1 = m_has_arcs d || existsb is_arc wr
  /\ m_max_segments d1 = Nat.max (m_max_segments d) (length wr)
  /\ tpp_max_recursion d1 = tpp_max_recursion d
  /\ m_stroked d1 = m_stroked d /\ m_filled d1 = m_filled d
  /\ fmap (M := list) m_edge_type <$> m_edges d1 = fmap (M := list) m_edge_type <$> m_edges d
  /\ fmap (M := list) seg_geometry <$> m_temp b1
     = (fmap (M := list) seg_geometry <$> m_temp b) ++ [seg_geometry <$> wr].
Proof.
  intro H. unfold add_edge in H.
  destruct (Nat.eqb (length wr) 0); [discriminate|].
  destruct (add_edge_loop_geometry None (bs_contour_length b) (m_has_arcs d) wr) as [G A].
  destruct (add_edge_loop t_cos t_sin magnitude None (bs_contour_length b) (m_has_arcs d) wr)
    as [[segs clen] ha] eqn:EL. simpl in G, A.
  destruct (if Nat.eqb (e + 2) (m_ende b) then _ else _) as [op cl'].
  injection H as <- <-. simpl.
  repeat split; try reflexivity.
  - exact A.
  - apply fmap_alter_same. intro x. apply fmap_alter_same. reflexivity.
  - rewrite fmap_app. f_equal. rewrite fmap_cons, fmap_nil. f_equal. rewrite set_edge_lengths_geometry. exact G.
Qed.

Lemma add_edges_fields d b o e ende edges d' b' :
  add_edges t_cos t_sin magnitude d b o e ende edges = Some (d', b') ->
  m_params d' = m_params d /\ m_segment_data d' = m_segment_data d
  /\ tpp_max_distance d' = fold_max_distance (tpp_max_distance d) edges
  /\ m_has_arcs d' = m_has_arcs d || existsb (fun eo => existsb is_arc (eo_segments eo)) edges
  /\ m_max_segments d' = fold_max_segments (m_max_segments d) edges
  /\ tpp_max_recursion d' = fold_max_recursion (tpp_max_recursion d) edges
  /\ m_stroked d' = m_stroked d /\ m_filled d' = m_filled d
  /\ fmap (M := list) seg_geometry <$> m_temp b'
     = (fmap (M := list) seg_geometry <$> m_temp b)
       ++ ((fun eo => seg_geometry <$> eo_segments eo) <$> edges).
Proof.
  revert d b e; induction edges as [|eo rest IH]; intros d b e H; simpl in H.
  - injection H as <- <-. simpl. rewrite orb_false_r, app_nil_r. repeat split; reflexivity.
  - set (d0 := match eo_depth eo with
               | None => d
               | Some k => mk_tpp (m_edges d) (m_segment_data d) (m_params d)
                             (tpp_max_distance d) (m_has_arcs d) (m_max_segments d)
                             (Nat.max (tpp_max_recursion d) k) (m_stroked d) (m_filled d)
               end) in H.
    destruct (add_edge t_cos t_sin magnitude d0 b o e (eo_segments eo) (eo_max_distance eo)
                (Nat.eqb (e + 1) ende)) as [[d1 b1]|] eqn:EA; [|discriminate].
    simpl in H. apply add_edge_fields in EA as (P1 & D1 & M1 & A1 & S1 & R1 & St1 & F1 & _ & T1).
    apply IH in H as (P & D & M & A & S & R & St & F & T). simpl in P, D, M, A, S, R, St, F.
    assert (E0 : m_params d0 = m_params d /\ m_segment_data d0 = m_segment_data d
                 /\ tpp_max_distance d0 = tpp_max_distance d
                 /\ m_has_arcs d0 = m_has_arcs d /\ m_max_segments d0 = m_max_segments d
                 /\ tpp_max_recursion d0 = match eo_depth eo with
                                          | Some k => Nat.max (tpp_max_recursion d) k
                                          | None => tpp_max_recursion d end
                 /\ m_stroked d0 = m_stroked d /\ m_filled d0 = m_filled d)
      by (unfold d0; destruct (eo_depth eo); repeat split).
    destruct E0 as (P0 & D0 & M0 & A0 & S0 & R0 & St0 & F0).
    repeat split.
    + rewrite P, P1, P0. reflexivity.
    + rewrite D, D1, D0. reflexivity.
    + rewrite M, M1, M0. reflexivity.
    + rewrite A, A1, A0, <- !orb_assoc. reflexivity.
    + rewrite S, S1, S0. reflexivity.
    + rewrite R, R1, R0. reflexivity.
    + rewrite St, St1, St0. reflexivity.
    + rewrite F, F1, F0. reflexivity.
    + rewrite T, T1, <- app_assoc. reflexivity.
Qed.

Lemma add_contours_fields d b o cs d' b' :
  add_contours t_cos t_sin magnitude d b o cs = Some (d', b') ->
  m_params d' = m_params d /\ m_segment_data d' = m_segment_data d
  /\ tpp_max_distance d' = fold_max_distance (tpp_max_distance d) (concat cs)
  /\ m_has_arcs d' = m_has_arcs d || existsb (fun eo => existsb is_arc (eo_segments eo)) (concat cs)
  /\ m_max_segments d' = fold_max_segments (m_max_segments d) (concat cs)
  /\ tpp_max_recursion d' = fold_max_recursion (tpp_max_recursion d) (concat cs)
  /\ m_stroked d' = m_stroked d /\ m_filled d' = m_filled d
  /\ fmap (M := list) seg_geometry <$> m_temp b'
     = (fmap (M := list) seg_geometry <$> m_temp b)
       ++ ((fun eo => seg_geometry <$> eo_segments eo) <$> concat cs).
Proof.
  revert d b o; induction cs as [|c rest IH]; intros d b o H; cbn [add_contours] in H.
  - injection H as <- <-. simpl. rewrite orb_false_r, app_nil_r. repeat split; reflexivity.
  - destruct (start_contour d b o (length c)) as [d1 b1] eqn:ES.
    unfold start_contour in ES. injection ES as <- <-.
    destruct (add_edges t_cos t_sin magnitude _ _ o 0 (length c) c) as [[d2 b2]|] eqn:EA;
      [|discriminate].
    simpl in H. apply add_edges_fields in EA as (P1 & D1 & M1 & A1 & S1 & R1 & St1 & F1 & T1).
    simpl in P1, D1, M1, A1, S1, R1, St1, F1, T1.
    apply IH in H as (P & D & M & A & S & R & St & F & T).
    unfold fold_max_distance, fold_max_segments, fold_max_recursion in *.
    cbn [concat]. rewrite !fold_left_app, existsb_app, fmap_app.
    repeat split.
    + rewrite P, P1. reflexivity.
    + rewrite D, D1. reflexivity.
    + rewrite M, M1. reflexivity.
    + rewrite A, A1, orb_assoc. reflexivity.
    + rewrite S, S1. reflexivity.
    + rewrite R, R1. reflexivity.
    + rewrite St, St1. reflexivity.
    + rewrite F, F1. reflexivity.
    + rewrite T, end_contour_geometry, T1, app_assoc. reflexivity.
Qed.

Lemma build_fields params outs tp :
  build_tessellated_path t_cos t_sin magnitude params outs = Some tp ->
  m_params tp = params
  /\ tpp_max_distance tp = fold_max_distance 0 (concat outs)
  /\ m_has_arcs tp = existsb (fun eo => existsb is_arc (eo_segments eo)) (concat outs)
  /\ m_max_segments tp = fold_max_segments 0 (concat outs)
  /\ tpp_max_recursion tp = fold_max_recursion 0 (concat outs)
  /\ m_stroked tp = None /\ m_filled tp = None
  /\ seg_geometry <$> m_segment_data tp = seg_geometry <$> concat (eo_segments <$> concat outs).
Proof.
  unfold build_tessellated_path. intro H.
  destruct (Nat.eqb (length outs) 0) eqn:E0.
  - apply Nat.eqb_eq, nil_length_inv in E0. subst. injection H as <-.
    repeat split; reflexivity.
  - destruct (add_contours t_cos t_sin magnitude
                (TessellatedPathPrivate_init (length outs) params) BuildingState_init 0 outs)
      as [[d' b']|] eqn:EA; [|discriminate].
    simpl in H. apply add_contours_fields in EA as (P & D & M & A & S & R & St & F & T).
    unfold finalize in H. destruct (last (m_edges d')) as [es|]; simpl in H; [|discriminate].
    destruct (last es) as [ed|]; simpl in H; [|discriminate].
    destruct (Nat.eqb (m_end (m_edge_range ed)) _); [|discriminate]. injection H as <-.
    repeat split; try assumption.
    transitivity (seg_geometry <$> concat (m_temp b')); [simpl; rewrite D; reflexivity|].
    rewrite <- concat_fmap_fmap, T. change (m_temp BuildingState_init) with (@nil (list segment)).
    rewrite fmap_nil, app_nil_l, <- (concat_fmap_fmap seg_geometry (eo_segments <$> concat outs)).
    rewrite <- list_fmap_compose. reflexivity.
Qed.

Lemma add_contours_types d b o cs d' b' Edone :
  add_contours t_cos t_sin magnitude d b o cs = Some (d', b') ->
  m_edges d = Edone ++ replicate (length cs) [] -> length Edone = o ->
  fmap (M := list) m_edge_type <$> m_edges d'
  = (fmap (M := list) m_edge_type <$> Edone) ++ (fmap (M := list) eo_edge_type <$> cs).
Proof.
  revert d b o Edone; induction cs as [|c rest IH]; intros d b o Edone H Hd Ho;
    cbn [add_contours] in H.
  - injection H as <- <-. rewrite Hd. simpl. rewrite !app_nil_r. reflexivity.
  - subst o. destruct (start_contour d b (length Edone) (length c)) as [d1 b1] eqn:ES.
    destruct (add_edges t_cos t_sin magnitude d1 b1 (length Edone) 0 (length c) c)
      as [[d2 b2]|] eqn:EA; [|discriminate].
    simpl in H. unfold start_contour in ES. injection ES as <- <-.
    edestruct (add_edges_spec t_cos t_sin magnitude _ _ _ _ _ _ _ _ Edone []
                 (replicate (length c) default_edge) (replicate (length rest) []) EA)
      as (P & F & E2 & _).
    { simpl. rewrite Hd. simpl. rewrite alter_middle by reflexivity. rewrite resize_nil. reflexivity. }
    { reflexivity. } { reflexivity. } { apply length_replicate. } { reflexivity. }
    rewrite (IH _ _ _ (Edone ++ [zip_with mk_Edge (chain_ranges (m_loc b) P) (eo_edge_type <$> c)]) H).
    + rewrite fmap_app, <- app_assoc. simpl. rewrite types_zip_with; [reflexivity|].
      rewrite length_chain_ranges, length_fmap. exact (Forall2_length _ _ _ F).
    + rewrite E2, <- app_assoc. reflexivity.
    + rewrite length_app. simpl. lia.
Qed.

Lemma build_edge_types params outs tp :
  build_tessellated_path t_cos t_sin magnitude params outs = Some tp ->
  fmap (M := list) m_edge_type <$> m_edges tp = fmap (M := list) eo_edge_type <$> outs.
Proof.
  unfold build_tessellated_path. intro H.
  destruct (Nat.eqb (length outs) 0) eqn:E0.
  - apply Nat.eqb_eq, nil_length_inv in E0. subst. injection H as <-. reflexivity.
  - destruct (add_contours t_cos t_sin magnitude
                (TessellatedPathPrivate_init (length outs) params) BuildingState_init 0 outs)
      as [[d' b']|] eqn:EA; [|discriminate].
    simpl in H. apply finalize_spec in H as [Ee _]. rewrite Ee.
    exact (add_contours_types _ _ _ _ _ _ [] EA eq_refl eq_refl).
Qed.

End Accumulation.

(** ** The [t_max] accumulations *)

Lemma t_max_Q_cases (a b : Q) :
  a <= t_max_Q a b /\ b <= t_max_Q a b /\ (t_max_Q a b = a \/ t_max_Q a b = b).
Proof.
  unfold t_max_Q. destruct (Qltb a b) eqn:E.
  - apply Qltb_spec in E. split; [apply Qlt_le_weak; exact E|]. split; [apply Qle_refl|auto].
  - assert (~ a < b) by (intro Hl; apply Qltb_spec in Hl; congruence).
    split; [apply Qle_refl|]. split; [apply Qnot_lt_le; assumption|auto].
Qed.

Lemma fold_max_distance_spec (m : Q) (l : list edge_output) :
  m <= fold_max_distance m l
  /\ (forall eo, eo ∈ l -> eo_max_distance eo <= fold_max_distance m l)
  /\ (fold_max_distance m l = m \/ exists eo, eo ∈ l /\ fold_max_distance m l = eo_max_distance eo).
Proof.
  unfold fold_max_distance. revert m; induction l as [|x l IH]; intro m; simpl.
  - split; [apply Qle_refl|]. split; [|auto]. intros eo Hx. apply elem_of_nil in Hx. contradiction.
  - destruct (t_max_Q_cases m (eo_max_distance x)) as (H1 & H2 & H3).
    destruct (IH (t_max_Q m (eo_max_distance x))) as (I1 & I2 & I3).
    split; [eapply Qle_trans; eassumption|]. split.
    + intros eo Hx. apply elem_of_cons in Hx as [->|Hx]; [eapply Qle_trans; eassumption|auto].
    + destruct I3 as [I3|(eo & Hx & I3)].
      * rewrite I3. destruct H3 as [H3|H3]; [left; exact H3|right].
        exists x. split; [apply elem_of_cons; left; reflexivity|exact H3].
      * right. exists eo. split; [apply elem_of_cons; right; exact Hx|exact I3].
Qed.

Lemma fold_max_segments_spec (m : nat) (l : list edge_output) :
  (m <= fold_max_segments m l)%nat
  /\ (forall eo, eo ∈ l -> (length (eo_segments eo) <= fold_max_segments m l)%nat)
  /\ (fold_max_segments m l = m
      \/ exists eo, eo ∈ l /\ fold_max_segments m l = length (eo_segments eo)).
Proof.
  unfold fold_max_segments. revert m; induction l as [|x l IH]; intro m; simpl.
  - split; [lia|]. split; [|auto]. intros eo Hx. apply elem_of_nil in Hx. contradiction.
  - destruct (IH (Nat.max m (length (eo_segments x)))) as (I1 & I2 & I3).
    split; [lia|]. split.
    + intros eo Hx. apply elem_of_cons in Hx as [->|Hx]; [lia|auto].
    + destruct I3 as [I3|(eo & Hx & I3)].
      * rewrite I3. destruct (Nat.max_spec m (length (eo_segments x))) as [[_ ->]|[_ ->]].
        -- right. exists x. split; [apply elem_of_cons; left; reflexivity|reflexivity].
        -- left. reflexivity.
      * right. exists eo. split; [apply elem_of_cons; right; exact Hx|exact I3].
Qed.

Lemma fold_max_recursion_spec (m : nat) (l : list edge_output) :
  (m <= fold_max_recursion m l)%nat
  /\ (forall eo k, eo ∈ l -> eo_depth eo = Some k -> (k <= fold_max_recursion m l)%nat)
  /\ (fold_max_recursion m l = m
      \/ exists eo, eo ∈ l /\ eo_depth eo = Some (fold_max_recursion m l)).
Proof.
  unfold fold_max_recursion. revert m; induction l as [|x l IH]; intro m; simpl.
  - split; [lia|]. split; [|auto]. intros eo k Hx. apply elem_of_nil in Hx. contradiction.
  - set (m' := match eo_depth x with Some k => Nat.max m k | None => m end).
    destruct (IH m') as (I1 & I2 & I3).
    assert (Hm : (m <= m')%nat) by (unfold m'; destruct (eo_depth x); lia).
    split; [lia|]. split.
    + intros eo k Hx Hk. apply elem_of_cons in Hx as [->|Hx]; [|eauto].
      assert (Hk' : (k <= m')%nat) by (unfold m'; rewrite Hk; lia). lia.
    + destruct I3 as [I3|(eo & Hx & I3)].
      * rewrite I3. unfold m'. destruct (eo_depth x) as [k|] eqn:Ek; [|left; reflexivity].
        destruct (Nat.max_spec m k) as [[_ ->]|[_ ->]].
        -- right. exists x. split; [apply elem_of_cons; left; reflexivity|exact Ek].
        -- left. reflexivity.
      * right. exists eo. split; [apply elem_of_cons; right; exact Hx|exact I3].
Qed.

Lemma elem_of_concat' {A} (x : A) (ls : list (list A)) :
  x ∈ concat ls <-> exists l, l ∈ ls /\ x ∈ l.
Proof.
  rewrite list_elem_of_In, in_concat. split.
  - intros (l & H1 & H2). exists l. rewrite !list_elem_of_In. auto.
  - intros (l & H1 & H2). exists l. rewrite <- !list_elem_of_In. auto.
Qed.

(** Two lists of lists whose items have the same lengths one by one are
    equal when their concatenations are. *)
Lemma concat_inj_lengths {A} (L K : list (list A)) :
  Forall2 (fun x y => length x = length y) L K -> concat L = concat K -> L = K.
Proof.
  induction 1 as [|x y L K Hxy _ IH]; [reflexivity|]. cbn [concat]. intro H.
  apply app_inj_1 in H as [-> H]; [|exact Hxy]. f_equal. apply IH. exact H.
Qed.

Lemma Forall2_concat' {A B} (R : A -> B -> Prop) (L : list (list A)) (K : list (list B)) :
  Forall2 (Forall2 R) L K -> Forall2 R (concat L) (concat K).
Proof. induction 1; cbn [concat]; [constructor|]. apply Forall2_app; assumption. Qed.

Lemma edge_rel_length p eo : edge_rel p eo -> length p = length (eo_segments eo).
Proof. unfold edge_rel. intros (_ & _ & Ps & _). rewrite <- (length_map m_start_pt p), Ps, length_map. reflexivity. Qed.

Lemma existsb_concat_fmap {A B} (f : B -> bool) (g : A -> list B) (l : list A) :
  existsb (fun a => existsb f (g a)) l = existsb f (concat (g <$> l)).
Proof.
  induction l as [|x l IH]; [reflexivity|].
  rewrite fmap_cons. cbn [concat existsb]. rewrite existsb_app, IH. reflexivity.
Qed.

Lemma arc_in_types (l : list segment) :
  (exists Sg, Sg ∈ l /\ m_type Sg = arc_segment) <-> arc_segment ∈ m_type <$> l.
Proof.
  rewrite list_elem_of_fmap. split.
  - intros (Sg & H1 & H2). exists Sg. auto.
  - intros (Sg & H1 & H2). exists Sg. auto.
Qed.

(** The layout of [build_spec], and the geometry of each stored segment as
    the interpolator wrote it. *)
Lemma build_geometry (t_cos t_sin : Q -> Q) (magnitude : vec2 -> Q)
    (params : TessellationParams) (outs : list (list edge_output)) (tp : TessellatedPathPrivate) :
  build_tessellated_path t_cos t_sin magnitude params outs = Some tp ->
  Forall (fun c => c <> []) outs ->
  exists G,
    Forall2 (Forall2 edge_rel) G outs
    /\ fmap (M := list) m_edge_range <$> m_edges tp = contour_ranges 0 G
    /\ m_segment_data tp = concat (concat G)
    /\ fmap (M := list) (fmap (M := list) (fmap (M := list) seg_geometry)) G
       = fmap (M := list) (fmap (M := list) (fun eo => seg_geometry <$> eo_segments eo)) outs.
Proof.
  intros Hb Hne.
  destruct (build_spec t_cos t_sin magnitude params outs tp Hb Hne) as (G & F & _ & HR & HD).
  destruct (build_fields t_cos t_sin magnitude params outs tp Hb) as (_ & _ & _ & _ & _ & _ & _ & T).
  exists G. split; [exact F|]. split; [exact HR|]. split; [exact HD|].
  apply concat_inj_lengths.
  - apply Forall2_fmap. eapply Forall2_impl; [exact F|]. intros g c Hgc. simpl.
    rewrite !length_fmap. exact (Forall2_length _ _ _ Hgc).
  - rewrite (concat_fmap_fmap (fmap (M := list) seg_geometry) G).
    rewrite (concat_fmap_fmap (fun eo => seg_geometry <$> eo_segments eo) outs).
    apply concat_inj_lengths.
    + apply Forall2_fmap. eapply Forall2_impl; [exact (Forall2_concat' _ _ _ F)|].
      intros p eo Hr. simpl. rewrite !length_fmap. exact (edge_rel_length p eo Hr).
    + rewrite (concat_fmap_fmap seg_geometry (concat G)), <- HD, T.
      rewrite <- (concat_fmap_fmap seg_geometry (eo_segments <$> concat outs)), <- list_fmap_compose.
      reflexivity.
Qed.

(** ** Properties of the query surface of a constructed TessellatedPath *)

(** X1: [max_distance()] of a constructed TessellatedPath is the largest
    [out_max_distance] any edge's tessellation reported, or 0 when none is
    larger: it is at least 0, at least the value reported for every edge, and
    is 0 or the value reported for some edge. *)
Theorem max_distance_bounds (t_cos t_sin : Q -> Q) (magnitude : vec2 -> Q)
    (params : TessellationParams) (outs : list (list edge_output)) (tp : TessellatedPathPrivate) :
  build_tessellated_path t_cos t_sin magnitude params outs = Some tp ->
  0 <= max_distance tp
  /\ (forall c eo, c ∈ outs -> eo ∈ c -> eo_max_distance eo <= max_distance tp)
  /\ (max_distance tp = 0
      \/ exists c eo, c ∈ outs /\ eo ∈ c /\ max_distance tp = eo_max_distance eo).
Proof.
  intro Hb. destruct (build_fields t_cos t_sin magnitude params outs tp Hb) as (_ & M & _).
  unfold max_distance. rewrite M.
  destruct (fold_max_distance_spec 0 (concat outs)) as (F1 & F2 & F3).
  split; [exact F1|]. split.
  - intros c eo Hc Heo. apply F2, elem_of_concat'. exists c. auto.
  - destruct F3 as [F3|(eo & Hin & F3)]; [left; exact F3|right].
    apply elem_of_concat' in Hin as (c & Hc & Heo). exists c, eo. auto.
Qed.

(** X2: [max_segments()] of a constructed TessellatedPath bounds the number
    of segments of every edge ([edge_segment_data(o, e).size()]), and when
    the path has a contour some edge has exactly that many segments. *)
Theorem max_segments_bounds (t_cos t_sin : Q -> Q) (magnitude : vec2 -> Q)
    (params : TessellationParams) (outs : list (list edge_output)) (tp : TessellatedPathPrivate) :
  build_tessellated_path t_cos t_sin magnitude params outs = Some tp ->
  Forall (fun c => c <> []) outs ->
  (forall o e segs, edge_segment_data tp o e = Some segs -> (length segs <= max_segments tp)%nat)
  /\ (outs <> [] ->
      exists o e segs, edge_segment_data tp o e = Some segs /\ length segs = max_segments tp).
Proof.
  intros Hb Hne.
  destruct (build_spec t_cos t_sin magnitude params outs tp Hb Hne) as (G & F & _ & HR & HD).
  destruct (build_fields t_cos t_sin magnitude params outs tp Hb) as (_ & _ & _ & S & _).
  unfold max_segments. rewrite S.
  destruct (fold_max_segments_spec 0 (concat outs)) as (_ & S2 & S3).
  split.
  - intros o e segs Hs. destruct (edge_segment_data_lookup tp G HR HD o e segs Hs) as (g & Hg & Hsegs).
    destruct (Forall2_lookup_l _ _ _ _ _ F Hg) as (c & Hc & Fc).
    destruct (Forall2_lookup_l _ _ _ _ _ Fc Hsegs) as (eo & Heo & Hr).
    rewrite (edge_rel_length _ _ Hr). apply S2, elem_of_concat'. exists c.
    split; eapply list_elem_of_lookup_2; eassumption.
  - intro Hout. destruct S3 as [S3|(eo & Hin & S3)].
    + exfalso. destruct outs as [|c0 outs']; [contradiction|].
      inversion Hne as [|? ? Hc0 _]; subst.
      destruct c0 as [|eo0 c0']; [contradiction|].
      destruct (Forall2_lookup_r _ _ _ 0%nat _ F eq_refl) as (g & _ & Fg).
      destruct (Forall2_lookup_r _ _ _ 0%nat _ Fg eq_refl) as (p & _ & Hr).
      assert (Hp := edge_rel_length _ _ Hr). destruct Hr as (Hpne & _).
      assert (H1 := S2 eo0 ltac:(apply elem_of_concat'; exists (eo0 :: c0');
                                 split; apply elem_of_cons; left; reflexivity)).
      destruct p; [contradiction|]. simpl in Hp. lia.
    + apply elem_of_concat' in Hin as (c & Hc & Heo).
      apply list_elem_of_lookup_1 in Hc as (o & Ho). apply list_elem_of_lookup_1 in Heo as (e & He).
      destruct (edge_segment_data_emitted t_cos t_sin magnitude params outs tp o e c eo Hb Hne Ho He)
        as (segs & Es & Ps & _).
      exists o, e, segs. split; [exact Es|]. rewrite S3, <- (length_map m_start_pt segs), Ps, length_map.
      reflexivity.
Qed.

(** X3: a constructed TessellatedPath has [has_arcs()] exactly when one of
    the segments of [segment_data()] is an arc segment. *)
Theorem has_arcs_iff_arc_segment (t_cos t_sin : Q -> Q) (magnitude : vec2 -> Q)
    (params : TessellationParams) (outs : list (list edge_output)) (tp : TessellatedPathPrivate) :
  build_tessellated_path t_cos t_sin magnitude params outs = Some tp ->
  has_arcs tp = true <-> exists Sg, Sg ∈ segment_data tp /\ m_type Sg = arc_segment.
Proof.
  intro Hb.
  destruct (build_fields t_cos t_sin magnitude params outs tp Hb) as (_ & _ & A & _ & _ & _ & _ & T).
  unfold has_arcs, segment_data. rewrite A, existsb_concat_fmap, existsb_is_arc_elem, !arc_in_types.
  apply (f_equal (fmap (M := list) (fun g => g.1.1.1.1.1.1))) in T.
  rewrite <- !list_fmap_compose in T. change (m_type <$> m_segment_data tp
    = m_type <$> concat (eo_segments <$> concat outs)) in T.
  rewrite T. reflexivity.
Qed.

(** X4: every edge of a constructed TessellatedPath keeps the segments its
    interpolator wrote: same count, and for each the same type, start and end
    point, center, radius, arc angle and [m_tangent_with_predecessor]. *)
Theorem edge_geometry_as_emitted (t_cos t_sin : Q -> Q) (magnitude : vec2 -> Q)
    (params : TessellationParams) (outs : list (list edge_output)) (tp : TessellatedPathPrivate)
    (o e : nat) (c : list edge_output) (eo : edge_output) :
  build_tessellated_path t_cos t_sin magnitude params outs = Some tp ->
  Forall (fun c => c <> []) outs ->
  outs !! o = Some c -> c !! e = Some eo ->
  exists segs, edge_segment_data tp o e = Some segs
    /\ seg_geometry <$> segs = seg_geometry <$> eo_segments eo.
Proof.
  intros Hb Hne Hc He.
  destruct (build_geometry t_cos t_sin magnitude params outs tp Hb Hne) as (G & F & HR & HD & EQ).
  destruct (edge_segment_data_emitted t_cos t_sin magnitude params outs tp o e c eo Hb Hne Hc He)
    as (segs & Es & _).
  exists segs. split; [exact Es|].
  destruct (edge_segment_data_lookup tp G HR HD o e segs Es) as (g & Hg & Hsegs).
  pose proof (f_equal (fun L => L !! o) EQ) as H1. cbv beta in H1.
  rewrite !list_lookup_fmap, Hg, Hc in H1. injection H1 as H1.
  pose proof (f_equal (fun L => L !! e) H1) as H2. cbv beta in H2.
  rewrite !list_lookup_fmap, Hsegs, He in H2. injection H2 as H2. exact H2.
Qed.

(** ** The Path constructor and the Refiner *)

Lemma fmap2_compose {A B C} (f : A -> B) (g : B -> C) (L : list (list A)) :
  fmap (M := list) (fmap (M := list) g) (fmap (M := list) (fmap (M := list) f) L)
  = fmap (M := list) (fmap (M := list) (fun x => g (f x))) L.
Proof.
  rewrite <- list_fmap_compose. apply list_fmap_ext. intros _ x _. simpl.
  rewrite <- list_fmap_compose. reflexivity.
Qed.

Lemma elem_of_concat_fmap2 {A B} (g : A -> B) (L : list (list A)) (y : B) :
  y ∈ concat (fmap (M := list) (fmap (M := list) g) L) <-> exists c x, c ∈ L /\ x ∈ c /\ y = g x.
Proof.
  rewrite elem_of_concat'. split.
  - intros (l & Hl & Hy). apply list_elem_of_fmap in Hl as (c & -> & Hc).
    apply list_elem_of_fmap in Hy as (x & -> & Hx). exists c, x. auto.
  - intros (c & x & Hc & Hx & ->). exists (g <$> c). split.
    + apply list_elem_of_fmap. exists c. auto.
    + apply list_elem_of_fmap. exists x. auto.
Qed.

Section FromPath.

Variables t_cos t_sin : Q -> Q.
Variable magnitude : vec2 -> Q.
Context {Interp TessState : Type}.
Variable produce_tessellation : Interp -> TessellationParams -> list segment * Q * option TessState.
Variable resume_tessellation : TessState -> TessellationParams -> list segment * Q * TessState.
Variable recursion_depth : TessState -> nat.
Variable interpolator_edge_type : Interp -> edge_type_t.

Lemma path_edge_fields (TP : TessellationParams) (i : Interp) :
  eo_depth (path_edge produce_tessellation recursion_depth interpolator_edge_type TP i).1
    = recursion_depth <$> (produce_tessellation i TP).2
  /\ eo_edge_type (path_edge produce_tessellation recursion_depth interpolator_edge_type TP i).1
    = interpolator_edge_type i
  /\ (path_edge produce_tessellation recursion_depth interpolator_edge_type TP i).2
    = mk_PerEdge (produce_tessellation i TP).2 i.
Proof.
  unfold path_edge. destruct (produce_tessellation i TP) as [[segs tmp] st]. repeat split.
Qed.

Lemma from_path_cases (input : list (list Interp)) (TP : TessellationParams) (ref : bool)
    (tp : TessellatedPathPrivate) (r : option RefinerPrivate) :
  TessellatedPath_from_path t_cos t_sin magnitude produce_tessellation recursion_depth
    interpolator_edge_type input TP ref = Some (tp, r) ->
  (input = [] /\ tp = TessellatedPathPrivate_init 0 TP /\ r = None)
  \/ (input <> []
      /\ build_tessellated_path t_cos t_sin magnitude TP
           (fmap (M := list) (fmap (M := list)
              (fun i => (path_edge produce_tessellation recursion_depth interpolator_edge_type TP i).1))
              input) = Some tp
      /\ r = if ref then Some (mk_RefinerPrivate tp
                 (fmap (M := list) (fmap (M := list)
                    (fun i => (path_edge produce_tessellation recursion_depth interpolator_edge_type TP i).2))
                    input))
             else None).
Proof.
  unfold TessellatedPath_from_path. intro H.
  destruct (Nat.eqb_spec (length input) 0) as [E|E].
  - apply length_zero_iff_nil in E. subst. injection H as <- <-. left. auto.
  - right. cbv zeta in H.
    destruct (build_tessellated_path _ _ _ _ _) as [d|] eqn:Eb; simpl in H; [|discriminate].
    rewrite fmap2_compose in Eb.
    injection H as <- <-. split; [intros ->; apply E; reflexivity|].
    split; [exact Eb|]. rewrite fmap2_compose. reflexivity.
Qed.

Lemma refine_cases (r : RefinerPrivate) (md : Q) (k : nat) (r' : RefinerPrivate) :
  md < max_distance (m_path r) ->
  refine_tessellation t_cos t_sin magnitude produce_tessellation resume_tessellation
    recursion_depth interpolator_edge_type r md k = Some r' ->
  let params := mk_params md (uint32_add (max_recursion (m_path r)) k) (m_allow_arcs (m_params (m_path r))) in
  (m_contours r = [] /\ m_path r' = TessellatedPathPrivate_init 0 params /\ m_contours r' = [])
  \/ (m_contours r <> []
      /\ build_tessellated_path t_cos t_sin magnitude params
           (fmap (M := list) (fmap (M := list)
              (fun pe => (refine_edge produce_tessellation resume_tessellation recursion_depth
                            interpolator_edge_type params pe).1)) (m_contours r)) = Some (m_path r')
      /\ m_contours r' = fmap (M := list) (fmap (M := list)
              (fun pe => (refine_edge produce_tessellation resume_tessellation recursion_depth
                            interpolator_edge_type params pe).2)) (m_contours r)).
Proof.
  intros Hlt H. unfold refine_tessellation in H. apply Qltb_spec in Hlt. rewrite Hlt in H.
  destruct (TessellatedPath_from_refiner _ _ _ _ _ _ _ r md k) as [[p cs]|] eqn:Ep;
    simpl in H; [|discriminate].
  injection H as <-. simpl. unfold TessellatedPath_from_refiner in Ep.
  destruct (Nat.eqb_spec (length (m_contours r)) 0) as [E|E].
  - apply length_zero_iff_nil in E. rewrite E in Ep |- *. injection Ep as <- <-. left. auto.
  - right. cbv zeta in Ep.
    destruct (build_tessellated_path _ _ _ _ _) as [d|] eqn:Eb; simpl in Ep; [|discriminate].
    rewrite fmap2_compose in Eb.
    injection Ep as <- <-. split; [intros E'; rewrite E' in E; apply E; reflexivity|].
    split; [exact Eb|]. rewrite fmap2_compose. reflexivity.
Qed.

End FromPath.

Lemma refine_edge_fields {Interp TessState : Type}
    (produce_tessellation : Interp -> TessellationParams -> list segment * Q * option TessState)
    (resume_tessellation : TessState -> TessellationParams -> list segment * Q * TessState)
    (recursion_depth : TessState -> nat) (interpolator_edge_type : Interp -> edge_type_t)
    (params : TessellationParams) (pe : PerEdge) :
  let r := refine_edge produce_tessellation resume_tessellation recursion_depth
             interpolator_edge_type params pe in
  eo_depth r.1 = recursion_depth <$> m_tess_state r.2
  /\ m_interpolator r.2 = m_interpolator pe
  /\ m_tess_state r.2 = (fun st => (resume_tessellation st params).2) <$> m_tess_state pe.
Proof.
  unfold refine_edge. destruct (m_tess_state pe) as [st|] eqn:E.
  - destruct (resume_tessellation st params) as [[segs tmp] st'] eqn:R. simpl.
    rewrite R. auto.
  - destruct (produce_tessellation (m_interpolator pe) params) as [[segs tmp] st']. simpl.
    rewrite E. auto.
Qed.

(** X5: the [max_recursion()] of the TessellatedPath a Path constructs is
    the largest [recursion_depth()] of the tessellation states its
    interpolators' [produce_tessellation] returned, or 0 when none is larger
    (edges returning no state do not count). *)
Theorem path_max_recursion (t_cos t_sin : Q -> Q) (magnitude : vec2 -> Q) {Interp TessState : Type}
    (produce_tessellation : Interp -> TessellationParams -> list segment * Q * option TessState)
    (recursion_depth : TessState -> nat) (interpolator_edge_type : Interp -> edge_type_t)
    (input : list (list Interp)) (TP : TessellationParams) (ref : bool)
    (tp : TessellatedPathPrivate) (r : option (@RefinerPrivate Interp TessState)) :
  TessellatedPath_from_path t_cos t_sin magnitude produce_tessellation recursion_depth
    interpolator_edge_type input TP ref = Some (tp, r) ->
  (forall c i st, c ∈ input -> i ∈ c -> (produce_tessellation i TP).2 = Some st ->
     (recursion_depth st <= max_recursion tp)%nat)
  /\ (max_recursion tp = 0%nat
      \/ exists c i st, c ∈ input /\ i ∈ c /\ (produce_tessellation i TP).2 = Some st
                        /\ recursion_depth st = max_recursion tp).
Proof.
  intro H. apply from_path_cases in H as [(-> & -> & ->)|(Hne & Hb & _)].
  - split; [|left; reflexivity]. intros c i st Hc. apply elem_of_nil in Hc. contradiction.
  - destruct (build_fields t_cos t_sin magnitude TP _ tp Hb) as (_ & _ & _ & _ & R & _).
    unfold max_recursion. rewrite R.
    destruct (fold_max_recursion_spec 0 (concat (fmap (M := list) (fmap (M := list)
      (fun i => (path_edge produce_tessellation recursion_depth interpolator_edge_type TP i).1))
      input))) as (_ & R2 & R3).
    split.
    + intros c i st Hc Hi Hst.
      apply (R2 (path_edge produce_tessellation recursion_depth interpolator_edge_type TP i).1).
      * apply elem_of_concat_fmap2. exists c, i. auto.
      * rewrite (proj1 (path_edge_fields produce_tessellation recursion_depth
                          interpolator_edge_type TP i)), Hst. reflexivity.
    + destruct R3 as [R3|(eo & Hin & R3)]; [left; exact R3|right].
      apply elem_of_concat_fmap2 in Hin as (c & i & Hc & Hi & ->).
      rewrite (proj1 (path_edge_fields produce_tessellation recursion_depth
                        interpolator_edge_type TP i)) in R3.
      destruct (produce_tessellation i TP).2 as [st|] eqn:Est; simpl in R3; [|discriminate].
      injection R3 as R3. exists c, i, st. auto.
Qed.

(** X6: [edge_type(o, e)] of the TessellatedPath a Path constructs is the
    [edge_type()] of the interpolator of edge [e] of contour [o], and the
    query fails exactly where the Path has no such edge. *)
Theorem path_edge_type (t_cos t_sin : Q -> Q) (magnitude : vec2 -> Q) {Interp TessState : Type}
    (produce_tessellation : Interp -> TessellationParams -> list segment * Q * option TessState)
    (recursion_depth : TessState -> nat) (interpolator_edge_type : Interp -> edge_type_t)
    (input : list (list Interp)) (TP : TessellationParams) (ref : bool)
    (tp : TessellatedPathPrivate) (r : option (@RefinerPrivate Interp TessState)) :
  TessellatedPath_from_path t_cos t_sin magnitude produce_tessellation recursion_depth
    interpolator_edge_type input TP ref = Some (tp, r) ->
  forall o e, edge_type tp o e = interpolator_edge_type <$> (input !! o ≫= (fun c => c !! e)).
Proof.
  intros H o e. apply from_path_cases in H as [(-> & -> & ->)|(Hne & Hb & _)]; [reflexivity|].
  assert (ET : fmap (M := list) (fmap (M := list) m_edge_type) (m_edges tp)
               = fmap (M := list) (fmap (M := list) interpolator_edge_type) input).
  { rewrite (build_edge_types t_cos t_sin magnitude TP _ tp Hb), fmap2_compose.
    apply list_fmap_ext. intros _ c _. apply list_fmap_ext. intros _ i _.
    apply (path_edge_fields produce_tessellation recursion_depth interpolator_edge_type TP i). }
  unfold edge_type. pose proof (f_equal (fun L => L !! o) ET) as H1. cbv beta in H1.
  rewrite !list_lookup_fmap in H1.
  destruct (m_edges tp !! o) as [es|], (input !! o) as [c|]; simpl in H1 |- *;
    try discriminate; [|reflexivity].
  injection H1 as H1. pose proof (f_equal (fun L => L !! e) H1) as H2. cbv beta in H2.
  rewrite !list_lookup_fmap in H2.
  destruct (es !! e) as [ed|], (c !! e) as [i|]; simpl in H2 |- *; try discriminate; [|reflexivity].
  injection H2 as H2. rewrite H2. reflexivity.
Qed.

(** X7: the Path constructor gives its TessellatedPath the
    TessellationParams it was passed; it creates a Refiner exactly when one is
    asked for and the Path has a contour; that Refiner holds the path, the
    interpolator of every edge, and the tessellation state (or null) that
    the interpolator's [produce_tessellation] returned. *)
Theorem path_refiner_records (t_cos t_sin : Q -> Q) (magnitude : vec2 -> Q) {Interp TessState : Type}
    (produce_tessellation : Interp -> TessellationParams -> list segment * Q * option TessState)
    (recursion_depth : TessState -> nat) (interpolator_edge_type : Interp -> edge_type_t)
    (input : list (list Interp)) (TP : TessellationParams) (ref : bool)
    (tp : TessellatedPathPrivate) (r : option (@RefinerPrivate Interp TessState)) :
  TessellatedPath_from_path t_cos t_sin magnitude produce_tessellation recursion_depth
    interpolator_edge_type input TP ref = Some (tp, r) ->
  tessellation_parameters tp = TP
  /\ (r = None <-> ref = false \/ input = [])
  /\ (forall rd, r = Some rd ->
        m_path rd = tp
        /\ fmap (M := list) (fmap (M := list) m_interpolator) (m_contours rd) = input
        /\ fmap (M := list) (fmap (M := list) m_tess_state) (m_contours rd)
           = fmap (M := list) (fmap (M := list) (fun i => (produce_tessellation i TP).2)) input).
Proof.
  intro H. apply from_path_cases in H as [(-> & -> & ->)|(Hne & Hb & ->)].
  - split; [reflexivity|]. split; [split; auto|]. intros rd Hrd. discriminate.
  - destruct (build_fields t_cos t_sin magnitude TP _ tp Hb) as (P & _).
    split; [exact P|]. destruct ref.
    + split; [split; [discriminate|intros [Hf|Hf]; [discriminate|contradiction]]|].
      intros rd Hrd. injection Hrd as <-. simpl. split; [reflexivity|].
      rewrite !fmap2_compose. split.
      * rewrite <- (list_fmap_id input) at 2. apply list_fmap_ext. intros _ c _.
        rewrite <- (list_fmap_id c) at 2. apply list_fmap_ext. intros _ i _.
        rewrite (proj2 (proj2 (path_edge_fields produce_tessellation recursion_depth
                                 interpolator_edge_type TP i))). reflexivity.
      * apply list_fmap_ext. intros _ c _. apply list_fmap_ext. intros _ i _.
        rewrite (proj2 (proj2 (path_edge_fields produce_tessellation recursion_depth
                                 interpolator_edge_type TP i))). reflexivity.
    + split; [split; auto|]. intros rd Hrd. discriminate.
Qed.

(** X8: when [refine_tessellation(max_distance, additional)] builds a new
    path, its TessellationParams are [max_distance], the [max_recursion()] of
    the held path plus [additional] as an [unsigned int] sum (modulo 2^32),
    and the [m_allow_arcs] of the held path's parameters. *)
Theorem refine_tessellation_params (t_cos t_sin : Q -> Q) (magnitude : vec2 -> Q)
    {Interp TessState : Type}
    (produce_tessellation : Interp -> TessellationParams -> list segment * Q * option TessState)
    (resume_tessellation : TessState -> TessellationParams -> list segment * Q * TessState)
    (recursion_depth : TessState -> nat) (interpolator_edge_type : Interp -> edge_type_t)
    (r : RefinerPrivate) (md : Q) (k : nat) (r' : RefinerPrivate) :
  md < max_distance (m_path r) ->
  refine_tessellation t_cos t_sin magnitude produce_tessellation resume_tessellation
    recursion_depth interpolator_edge_type r md k = Some r' ->
  tessellation_parameters (m_path r')
  = mk_params md (uint32_add (max_recursion (m_path r)) k) (m_allow_arcs (tessellation_parameters (m_path r))).
Proof.
  intros Hlt H.
  destruct (refine_cases t_cos t_sin magnitude produce_tessellation resume_tessellation
              recursion_depth interpolator_edge_type r md k r' Hlt H)
    as [(_ & -> & _)|(_ & Hb & _)]; [reflexivity|].
  exact (proj1 (build_fields t_cos t_sin magnitude _ _ _ Hb)).
Qed.

(** X9: when [refine_tessellation] builds a new path, the Refiner keeps the
    interpolator of every edge, and an edge has a tessellation state after
    the call exactly when it had one before: the state as its
    [resume_tessellation] with the new parameters left it. *)
Theorem refine_tessellation_states (t_cos t_sin : Q -> Q) (magnitude : vec2 -> Q)
    {Interp TessState : Type}
    (produce_tessellation : Interp -> TessellationParams -> list segment * Q * option TessState)
    (resume_tessellation : TessState -> TessellationParams -> list segment * Q * TessState)
    (recursion_depth : TessState -> nat) (interpolator_edge_type : Interp -> edge_type_t)
    (r : RefinerPrivate) (md : Q) (k : nat) (r' : RefinerPrivate) :
  md < max_distance (m_path r) ->
  refine_tessellation t_cos t_sin magnitude produce_tessellation resume_tessellation
    recursion_depth interpolator_edge_type r md k = Some r' ->
  fmap (M := list) (fmap (M := list) m_interpolator) (m_contours r')
  = fmap (M := list) (fmap (M := list) m_interpolator) (m_contours r)
  /\ fmap (M := list) (fmap (M := list) m_tess_state) (m_contours r')
     = fmap (M := list) (fmap (M := list) (fun pe =>
         (fun st => (resume_tessellation st
                       (mk_params md (uint32_add (max_recursion (m_path r)) k)
                          (m_allow_arcs (m_params (m_path r))))).2) <$> m_tess_state pe))
         (m_contours r).
Proof.
  intros Hlt H.
  destruct (refine_cases t_cos t_sin magnitude produce_tessellation resume_tessellation
              recursion_depth interpolator_edge_type r md k r' Hlt H)
    as [(E & _ & E')|(_ & _ & E')]; rewrite E'; [rewrite E; split; reflexivity|].
  rewrite !fmap2_compose. split.
  - apply list_fmap_ext. intros _ c _. apply list_fmap_ext. intros _ pe _.
    apply refine_edge_fields.
  - apply list_fmap_ext. intros _ c _. apply list_fmap_ext. intros _ pe _.
    apply refine_edge_fields.
Qed.

Lemma elem_of_fmap2_elem {A B} (g : A -> B) (L : list (list A)) (c : list B) (y : B) :
  c ∈ fmap (M := list) (fmap (M := list) g) L -> y ∈ c ->
  exists c0 x, c0 ∈ L /\ x ∈ c0 /\ y = g x.
Proof.
  intros Hc Hy. apply list_elem_of_fmap in Hc as (c0 & -> & Hc0).
  apply list_elem_of_fmap in Hy as (x & -> & Hx). exists c0, x. auto.
Qed.

(** X10: when [refine_tessellation] builds a new path, the new path's
    [max_recursion()] is the largest [recursion_depth()] of the tessellation
    states the Refiner holds after the call, or 0 when none is larger. *)
Theorem refine_tessellation_max_recursion (t_cos t_sin : Q -> Q) (magnitude : vec2 -> Q)
    {Interp TessState : Type}
    (produce_tessellation : Interp -> TessellationParams -> list segment * Q * option TessState)
    (resume_tessellation : TessState -> TessellationParams -> list segment * Q * TessState)
    (recursion_depth : TessState -> nat) (interpolator_edge_type : Interp -> edge_type_t)
    (r : RefinerPrivate) (md : Q) (k : nat) (r' : RefinerPrivate) :
  md < max_distance (m_path r) ->
  refine_tessellation t_cos t_sin magnitude produce_tessellation resume_tessellation
    recursion_depth interpolator_edge_type r md k = Some r' ->
  (forall c pe st, c ∈ m_contours r' -> pe ∈ c -> m_tess_state pe = Some st ->
     (recursion_depth st <= max_recursion (m_path r'))%nat)
  /\ (max_recursion (m_path r') = 0%nat
      \/ exists c pe st, c ∈ m_contours r' /\ pe ∈ c /\ m_tess_state pe = Some st
                         /\ recursion_depth st = max_recursion (m_path r')).
Proof.
  intros Hlt H.
  destruct (refine_cases t_cos t_sin magnitude produce_tessellation resume_tessellation
              recursion_depth interpolator_edge_type r md k r' Hlt H)
    as [(_ & -> & ->)|(_ & Hb & E')].
  - split; [|left; reflexivity]. intros c pe st Hc. apply elem_of_nil in Hc. contradiction.
  - set (params := mk_params md (uint32_add (max_recursion (m_path r)) k)
                     (m_allow_arcs (m_params (m_path r)))) in *.
    destruct (build_fields t_cos t_sin magnitude params _ _ Hb) as (_ & _ & _ & _ & R & _).
    unfold max_recursion. rewrite R.
    destruct (fold_max_recursion_spec 0 (concat (fmap (M := list) (fmap (M := list)
      (fun pe => (refine_edge produce_tessellation resume_tessellation recursion_depth
                    interpolator_edge_type params pe).1)) (m_contours r))))
      as (_ & R2 & R3).
    rewrite E'. split.
    + intros c pe st Hc Hpe Hst.
      destruct (elem_of_fmap2_elem _ _ c pe Hc Hpe) as (c0 & pe0 & Hc0 & Hpe0 & ->).
      destruct (refine_edge_fields produce_tessellation resume_tessellation recursion_depth
                  interpolator_edge_type params pe0) as (D & _).
      apply (R2 (refine_edge produce_tessellation resume_tessellation recursion_depth
                   interpolator_edge_type params pe0).1).
      * apply elem_of_concat_fmap2. exists c0, pe0. auto.
      * rewrite D, Hst. reflexivity.
    + destruct R3 as [R3|(eo & Hin & R3)]; [left; exact R3|right].
      apply elem_of_concat_fmap2 in Hin as (c0 & pe0 & Hc0 & Hpe0 & ->).
      destruct (refine_edge_fields produce_tessellation resume_tessellation recursion_depth
                  interpolator_edge_type params pe0) as (D & _).
      rewrite D in R3.
      destruct (m_tess_state (refine_edge produce_tessellation resume_tessellation
                  recursion_depth interpolator_edge_type params pe0).2) as [st|] eqn:Est;
        simpl in R3; [|discriminate].
      injection R3 as R3.
      exists ((fun pe => (refine_edge produce_tessellation resume_tessellation recursion_depth
                            interpolator_edge_type params pe).2) <$> c0),
             (refine_edge produce_tessellation resume_tessellation recursion_depth
                interpolator_edge_type params pe0).2, st.
      split; [apply list_elem_of_fmap; exists c0; auto|].
      split; [apply list_elem_of_fmap; exists pe0; auto|]. auto.
Qed.

(** ** Instances of the query and refinement properties on the sample paths *)

Lemma max_distance_bounds_witness :
  exists tp,
    build_tessellated_path sample_cos sample_sin sample_magnitude sample_params sample_outs = Some tp
    /\ (0 <= max_distance tp
        /\ (forall c eo, c ∈ sample_outs -> eo ∈ c -> eo_max_distance eo <= max_distance tp)
        /\ (max_distance tp = 0
            \/ exists c eo, c ∈ sample_outs /\ eo ∈ c /\ max_distance tp = eo_max_distance eo)).
Proof.
  eexists. split; [vm_compute; reflexivity|].
  apply (max_distance_bounds sample_cos sample_sin sample_magnitude sample_params sample_outs).
  vm_compute. reflexivity.
Defined.

Lemma max_segments_bounds_witness :
  exists tp,
    build_tessellated_path sample_cos sample_sin sample_magnitude sample_params sample_outs = Some tp
    /\ Forall (fun c => c <> []) sample_outs
    /\ ((forall o e segs, edge_segment_data tp o e = Some segs -> (length segs <= max_segments tp)%nat)
        /\ (sample_outs <> [] ->
            exists o e segs, edge_segment_data tp o e = Some segs /\ length segs = max_segments tp)).
Proof.
  eexists. split; [vm_compute; reflexivity|]. split; [repeat constructor; discriminate|].
  apply (max_segments_bounds sample_cos sample_sin sample_magnitude sample_params sample_outs).
  - vm_compute. reflexivity.
  - repeat constructor; discriminate.
Defined.

Lemma has_arcs_iff_arc_segment_witness :
  exists tp,
    build_tessellated_path sample_cos sample_sin sample_magnitude sample_params sample_outs = Some tp
    /\ (has_arcs tp = true <-> exists Sg, Sg ∈ segment_data tp /\ m_type Sg = arc_segment).
Proof.
  eexists. split; [vm_compute; reflexivity|].
  apply (has_arcs_iff_arc_segment sample_cos sample_sin sample_magnitude sample_params sample_outs).
  vm_compute. reflexivity.
Defined.

Lemma edge_geometry_as_emitted_witness :
  exists tp,
    build_tessellated_path sample_cos sample_sin sample_magnitude sample_params sample_outs = Some tp
    /\ sample_outs !! 0%nat = Some (List.hd [] sample_outs)
    /\ List.hd [] sample_outs !! 0%nat = Some (List.hd gap_edge (List.hd [] sample_outs))
    /\ exists segs, edge_segment_data tp 0 0 = Some segs
         /\ seg_geometry <$> segs
            = seg_geometry <$> eo_segments (List.hd gap_edge (List.hd [] sample_outs)).
Proof.
  eexists. split; [vm_compute; reflexivity|].
  split; [reflexivity|]. split; [reflexivity|].
  apply (edge_geometry_as_emitted sample_cos sample_sin sample_magnitude sample_params sample_outs
           _ 0 0 (List.hd [] sample_outs) (List.hd gap_edge (List.hd [] sample_outs))).
  - vm_compute. reflexivity.
  - repeat constructor; discriminate.
  - reflexivity.
  - reflexivity.
Defined.

Lemma path_max_recursion_witness :
  exists tp r,
    TessellatedPath_from_path sample_cos sample_sin sample_magnitude sample_produce sample_depth
      sample_edge_type sample_input sample_params true = Some (tp, r)
    /\ ((forall c i st, c ∈ sample_input -> i ∈ c -> (sample_produce i sample_params).2 = Some st ->
           (sample_depth st <= max_recursion tp)%nat)
        /\ (max_recursion tp = 0%nat
            \/ exists c i st, c ∈ sample_input /\ i ∈ c /\ (sample_produce i sample_params).2 = Some st
                              /\ sample_depth st = max_recursion tp)).
Proof.
  eexists. eexists. split; [vm_compute; reflexivity|].
  eapply (path_max_recursion sample_cos sample_sin sample_magnitude sample_produce sample_depth
           sample_edge_type sample_input sample_params true).
  vm_compute. reflexivity.
Defined.

Lemma path_edge_type_witness :
  exists tp r,
    TessellatedPath_from_path sample_cos sample_sin sample_magnitude sample_produce sample_depth
      sample_edge_type sample_input sample_params true = Some (tp, r)
    /\ forall o e, edge_type tp o e = sample_edge_type <$> (sample_input !! o ≫= (fun c => c !! e)).
Proof.
  eexists. eexists. split; [vm_compute; reflexivity|].
  eapply (path_edge_type sample_cos sample_sin sample_magnitude sample_produce sample_depth
           sample_edge_type sample_input sample_params true).
  vm_compute. reflexivity.
Defined.

Lemma path_refiner_records_witness :
  exists tp r,
    TessellatedPath_from_path sample_cos sample_sin sample_magnitude sample_produce sample_depth
      sample_edge_type sample_input sample_params true = Some (tp, r)
    /\ (tessellation_parameters tp = sample_params
        /\ (r = None <-> true = false \/ sample_input = [])
        /\ (forall rd, r = Some rd ->
              m_path rd = tp
              /\ fmap (M := list) (fmap (M := list) m_interpolator) (m_contours rd) = sample_input
              /\ fmap (M := list) (fmap (M := list) m_tess_state) (m_contours rd)
                 = fmap (M := list) (fmap (M := list) (fun i => (sample_produce i sample_params).2))
                     sample_input)).
Proof.
  eexists. eexists. split; [vm_compute; reflexivity|].
  apply (path_refiner_records sample_cos sample_sin sample_magnitude sample_produce sample_depth
           sample_edge_type sample_input sample_params true).
  vm_compute. reflexivity.
Defined.

Lemma refine_tessellation_params_witness :
  exists tp r r',
    TessellatedPath_from_path sample_cos sample_sin sample_magnitude sample_produce sample_depth
      sample_edge_type sample_input sample_params true = Some (tp, Some r)
    /\ (1 # 100) < max_distance (m_path r)
    /\ refine_tessellation sample_cos sample_sin sample_magnitude sample_produce sample_resume
         sample_depth sample_edge_type r (1 # 100) 2 = Some r'
    /\ tessellation_parameters (m_path r')
       = mk_params (1 # 100) (uint32_add (max_recursion (m_path r)) 2)
           (m_allow_arcs (tessellation_parameters (m_path r))).
Proof.
  eexists. eexists. eexists. split; [vm_compute; reflexivity|].
  match goal with
  | |- context [refine_tessellation _ _ _ _ _ _ _ ?R _ _] =>
      split; [vm_compute; reflexivity|]; split; [vm_compute; reflexivity|];
      apply (refine_tessellation_params sample_cos sample_sin sample_magnitude sample_produce
               sample_resume sample_depth sample_edge_type R (1 # 100) 2)
  end.
  - vm_compute. reflexivity.
  - vm_compute. reflexivity.
Defined.

Lemma refine_tessellation_states_witness :
  exists tp r r',
    TessellatedPath_from_path sample_cos sample_sin sample_magnitude sample_produce sample_depth
      sample_edge_type sample_input sample_params true = Some (tp, Some r)
    /\ (1 # 100) < max_distance (m_path r)
    /\ refine_tessellation sample_cos sample_sin sample_magnitude sample_produce sample_resume
         sample_depth sample_edge_type r (1 # 100) 2 = Some r'
    /\ (fmap (M := list) (fmap (M := list) m_interpolator) (m_contours r')
        = fmap (M := list) (fmap (M := list) m_interpolator) (m_contours r)
        /\ fmap (M := list) (fmap (M := list) m_tess_state) (m_contours r')
           = fmap (M := list) (fmap (M := list) (fun pe =>
               (fun st => (sample_resume st
                             (mk_params (1 # 100) (uint32_add (max_recursion (m_path r)) 2)
                                (m_allow_arcs (m_params (m_path r))))).2) <$> m_tess_state pe))
               (m_contours r)).
Proof.
  eexists. eexists. eexists. split; [vm_compute; reflexivity|].
  match goal with
  | |- context [refine_tessellation _ _ _ _ _ _ _ ?R _ _] =>
      split; [vm_compute; reflexivity|]; split; [vm_compute; reflexivity|];
      apply (refine_tessellation_states sample_cos sample_sin sample_magnitude sample_produce
               sample_resume sample_depth sample_edge_type R (1 # 100) 2)
  end.
  - vm_compute. reflexivity.
  - vm_compute. reflexivity.
Defined.

Lemma refine_tessellation_max_recursion_witness :
  exists tp r r',
    TessellatedPath_from_path sample_cos sample_sin sample_magnitude sample_produce sample_depth
      sample_edge_type sample_input sample_params true = Some (tp, Some r)
    /\ (1 # 100) < max_distance (m_path r)
    /\ refine_tessellation sample_cos sample_sin sample_magnitude sample_produce sample_resume
         sample_depth sample_edge_type r (1 # 100) 2 = Some r'
    /\ ((forall c pe st, c ∈ m_contours r' -> pe ∈ c -> m_tess_state pe = Some st ->
           (sample_depth st <= max_recursion (m_path r'))%nat)
        /\ (max_recursion (m_path r') = 0%nat
            \/ exists c pe st, c ∈ m_contours r' /\ pe ∈ c /\ m_tess_state pe = Some st
                               /\ sample_depth st = max_recursion (m_path r'))).
Proof.
  eexists. eexists. eexists. split; [vm_compute; reflexivity|].
  match goal with
  | |- context [refine_tessellation _ _ _ _ _ _ _ ?R _ _] =>
      split; [vm_compute; reflexivity|]; split; [vm_compute; reflexivity|];
      apply (refine_tessellation_max_recursion sample_cos sample_sin sample_magnitude sample_produce
               sample_resume sample_depth sample_edge_type R (1 # 100) 2)
  end.
  - vm_compute. reflexivity.
  - vm_compute. reflexivity.
Defined.

(** ** stroked and filled on the paths a program can hold *)

Lemma refiner_path_filled_null (t_cos t_sin : Q -> Q) (magnitude : vec2 -> Q)
    {Interp TessState : Type}
    (produce_tessellation : Interp -> TessellationParams -> list segment * Q * option TessState)
    (resume_tessellation : TessState -> TessellationParams -> list segment * Q * TessState)
    (recursion_depth : TessState -> nat) (interpolator_edge_type : Interp -> edge_type_t)
    (r : RefinerPrivate) :
  refiner_reachable t_cos t_sin magnitude produce_tessellation resume_tessellation
    recursion_depth interpolator_edge_type r ->
  m_filled (m_path r) = None.
Proof.
  induction 1 as [input TP tp r Hne Hp|r md k r' Hr IH Href].
  - apply from_path_cases in Hp as [(_ & _ & Hr)|(_ & Hb & Hr)]; [discriminate|].
    injection Hr as Hr. subst r. simpl.
    exact (proj1 (proj2 (proj2 (proj2 (proj2 (proj2 (proj2
             (build_fields t_cos t_sin magnitude _ _ _ Hb)))))))).
  - destruct (Qltb md (max_distance (m_path r))) eqn:E.
    + apply Qltb_spec in E.
      destruct (refine_cases t_cos t_sin magnitude produce_tessellation resume_tessellation
                  recursion_depth interpolator_edge_type r md k r' E Href)
        as [(_ & -> & _)|(_ & Hb & _)]; [reflexivity|].
      exact (proj1 (proj2 (proj2 (proj2 (proj2 (proj2 (proj2
               (build_fields t_cos t_sin magnitude _ _ _ Hb)))))))).
    + unfold refine_tessellation in Href. rewrite E in Href. injection Href as <-. exact IH.
Qed.

(** Every TessellatedPath a program can hold that has arcs holds no
    FilledPath. *)
Lemma tp_reachable_filled_null (d : TessellatedPathPrivate) :
  tp_reachable d -> m_has_arcs d = true -> m_filled d = None.
Proof.
  induction 1 as [Interp TessState t_cos t_sin magnitude produce depth et input TP ref tp r Hp
                 |Interp TessState t_cos t_sin magnitude produce resume depth et r md k r' Hr Href
                 |d k Hd IH|d k Hd IH]; intro Ha.
  - apply from_path_cases in Hp as [(_ & -> & _)|(_ & Hb & _)]; [reflexivity|].
    exact (proj1 (proj2 (proj2 (proj2 (proj2 (proj2 (proj2
             (build_fields t_cos t_sin magnitude _ _ _ Hb)))))))).
  - apply (refiner_path_filled_null t_cos t_sin magnitude produce resume depth et).
    exact (reachable_refine _ _ _ _ _ _ _ r md k r' Hr Href).
  - unfold stroked in Ha |- *. destruct (m_stroked d); simpl in Ha |- *; apply IH, Ha.
  - unfold filled in Ha |- *. destruct (m_has_arcs d) eqn:A.
    + rewrite andb_false_r in Ha |- *. simpl in Ha |- *. apply IH. reflexivity.
    + destruct (negb (bool_decide (is_Some (m_filled d)))); simpl in Ha;
        try rewrite A in Ha; discriminate.
Qed.

(** C9 (as the code has it): [stroked()] creates its StrokedPath on the first
    call when there is none, and every call returns the same object; the same
    holds of [filled()] on a path without arcs; on a path with arcs that a
    program can hold (built by a constructor, then any calls of [stroked()]
    and [filled()]), every call of [filled()] creates nothing, leaves the
    path as it is, and returns null. *)
Theorem stroked_filled_cached (d : TessellatedPathPrivate) (next_object n : nat) :
  (exists d',
     call_seq stroked (Datatypes.S n) d next_object
     = (replicate (Datatypes.S n) (match m_stroked d with Some p => p | None => next_object end),
        d', match m_stroked d with Some _ => next_object | None => Datatypes.S next_object end))
  /\ (m_has_arcs d = false ->
      exists d',
        call_seq filled (Datatypes.S n) d next_object
        = (replicate (Datatypes.S n) (Some (match m_filled d with Some p => p | None => next_object end)),
           d', match m_filled d with Some _ => next_object | None => Datatypes.S next_object end))
  /\ (tp_reachable d -> m_has_arcs d = true ->
      call_seq filled n d next_object = (replicate n None, d, next_object)).
Proof.
  split; [|split].
  - destruct (m_stroked d) as [p|] eqn:E.
    + exists d. apply call_seq_fixed. unfold stroked. rewrite E. reflexivity.
    + eexists. rewrite call_seq_S. unfold stroked at 1. rewrite E.
      rewrite (call_seq_fixed stroked n _ _ next_object); reflexivity.
  - intro Ha. destruct (m_filled d) as [p|] eqn:E.
    + exists d. apply call_seq_fixed. unfold filled. rewrite E. reflexivity.
    + eexists. rewrite call_seq_S. unfold filled at 1. rewrite E, Ha. simpl.
      rewrite (call_seq_fixed filled n _ _ (Some next_object)); [reflexivity|].
      unfold filled. simpl. rewrite ?Ha. reflexivity.
  - intros Hr Ha. apply call_seq_fixed. unfold filled.
    rewrite Ha, andb_false_r, (tp_reachable_filled_null d Hr Ha). reflexivity.
Qed.

(** A Path of one contour: the half circle of [sample_outs] and its
    closing line; the path built from it has an arc, and three calls of
    [filled()] return null. *)
Lemma stroked_filled_cached_witness :
  exists tp,
    TessellatedPath_from_path sample_cos sample_sin sample_magnitude sample_produce sample_depth
      sample_edge_type
      [[add_arc_segment sample_pi sample_cos sample_sin (1, 0) (-1, 0) (0, 0) 1
          (mk_range 0 sample_pi) [];
        add_line_segment (-1, 0) (1, 0) []]]
      sample_params false = Some (tp, None)
    /\ m_has_arcs tp = true
    /\ call_seq filled 3 tp 0 = (replicate 3 None, tp, 0%nat).
Proof.
  eexists. split; [vm_compute; reflexivity|]. split; [vm_compute; reflexivity|].
  apply (proj2 (proj2 (stroked_filled_cached _ 0 3))).
  - apply (tp_reachable_from_path sample_cos sample_sin sample_magnitude sample_produce
             sample_depth sample_edge_type
             [[add_arc_segment sample_pi sample_cos sample_sin (1, 0) (-1, 0) (0, 0) 1
                 (mk_range 0 sample_pi) [];
               add_line_segment (-1, 0) (1, 0) []]]
             sample_params false _ None).
    vm_compute. reflexivity.
  - vm_compute. reflexivity.
Defined.
